(** * IPTV player backend: the M3U parser and the relay handlers of
      [src/backend/server.js]

    A shallow embedding of [parseM3U] and of the Express route handlers,
    together with the properties of the written specification that can be
    stated over it.

    A JavaScript string is a sequence of UTF-16 code units; it is modelled as
    a list of numbers.  Every library routine the source calls ([split],
    [trim], [startsWith], the regular expressions, [decodeURIComponent]) is
    written out over these lists following ECMAScript. *)

From Stdlib Require Import Strings.String Strings.Ascii.
From Stdlib Require Import List ZArith NArith Bool Lia Sorted.
From Stdlib Require Import Floats.SpecFloat.
Import ListNotations.

Set Implicit Arguments.
Set Warnings "-register-all".

(* ------------------------------------------------------------------ *)
(** ** JavaScript strings *)

Module JS.

Definition char := N.
Definition str := list char.

(** A Rocq literal read as a JavaScript string (one code unit per byte). *)
Definition of_string (s : string) : str :=
  List.map N_of_ascii (list_ascii_of_string s).

Definition LF : char := 10%N.
Definition CR : char := 13%N.
Definition LS : char := 8232%N.      (* U+2028 *)
Definition PS : char := 8233%N.      (* U+2029 *)
Definition dquote : char := 34%N.    (* the double quote *)
Definition hash : char := 35%N.      (* # *)
Definition percent : char := 37%N.   (* % *)
Definition comma : char := 44%N.     (* , *)

(** ECMAScript LineTerminator. *)
Definition is_line_terminator (c : char) : bool :=
  (c =? LF)%N || (c =? CR)%N || (c =? LS)%N || (c =? PS)%N.

(** ECMAScript WhiteSpace (TAB, VT, FF, ZWNBSP and the category Zs) together
    with LineTerminator: the code units [String.prototype.trim] strips. *)
Definition is_space (c : char) : bool :=
  (c =? 9)%N || (c =? 11)%N || (c =? 12)%N || (c =? 32)%N || (c =? 160)%N
  || (c =? 5760)%N || ((8192 <=? c)%N && (c <=? 8202)%N)
  || (c =? 8239)%N || (c =? 8287)%N || (c =? 12288)%N || (c =? 65279)%N
  || is_line_terminator c.

Fixpoint drop_spaces (s : str) : str :=
  match s with
  | c :: t => if is_space c then drop_spaces t else s
  | [] => []
  end.

(** [s.trim()] *)
Definition trim (s : str) : str :=
  rev (drop_spaces (rev (drop_spaces s))).

(** [s.split(sep)] for a separator of one code unit; the result is never
    empty, and the empty string splits into one empty piece. *)
Fixpoint split (sep : char) (s : str) : list str :=
  match s with
  | [] => [[]]
  | c :: t =>
      if (c =? sep)%N then [] :: split sep t
      else match split sep t with
           | piece :: pieces => (c :: piece) :: pieces
           | [] => [[c]]
           end
  end.

(** [Boolean(s)] for a string: the empty string is the only falsy one. *)
Definition truthy_str (s : str) : bool :=
  match s with [] => false | _ :: _ => true end.

(** [s.startsWith(p)] *)
Fixpoint startsWith (p s : str) : bool :=
  match p, s with
  | [], _ => true
  | _ :: _, [] => false
  | a :: p', b :: s' => (a =? b)%N && startsWith p' s'
  end.

(** The rest of [s] behind the prefix [p], when [s] starts with [p]. *)
Fixpoint after_prefix (p s : str) : option str :=
  match p, s with
  | [], _ => Some s
  | _ :: _, [] => None
  | a :: p', b :: s' => if (a =? b)%N then after_prefix p' s' else None
  end.

(** What a negated class of the double quote, starred and followed by a
    double quote, matches at the head of [s]: the code units in front of the
    first double quote; no match when [s] holds no double quote. *)
Fixpoint until_dquote (s : str) : option str :=
  match s with
  | [] => None
  | c :: t =>
      if (c =? dquote)%N then Some []
      else match until_dquote t with
           | Some v => Some (c :: v)
           | None => None
           end
  end.

(** [s.match(re)] for the four attribute expressions, which are a literal
    (the key, [=] and a double quote), a captured run of code units other than
    the double quote, and a closing double quote: the capture of the leftmost
    match.  [lit] is the literal part.  The search tries every start position
    from the left, as the regular expression engine does. *)
Definition attr_here (lit s : str) : option str :=
  match after_prefix lit s with
  | Some rest => until_dquote rest
  | None => None
  end.

Fixpoint match_attr (lit s : str) : option str :=
  match attr_here lit s with
  | Some v => Some v
  | None =>
      match s with
      | [] => None
      | _ :: t => match_attr lit t
      end
  end.

(** [.] of a regular expression without flags: any code unit but a
    LineTerminator. *)
Definition is_dot (c : char) : bool := negb (is_line_terminator c).

(** [s.match(/,(.+)$/)]: the capture of the leftmost match.  Without the [m]
    flag [$] is the end of the string, so at a start position the match needs
    a comma followed by a non-empty run of [.] that reaches the end. *)
Fixpoint match_title (s : str) : option str :=
  match s with
  | [] => None
  | c :: t =>
      if (c =? comma)%N && truthy_str t && forallb is_dot t then Some t
      else match_title t
  end.

End JS.

Definition jsstring : Type := JS.str.
Notation "'js' s" := (JS.of_string s%string) (at level 9, s at level 0, only parsing).

(* ------------------------------------------------------------------ *)
(** ** parseM3U *)

Record Channel := mkChannel {
  id : Z;
  title : jsstring;
  group : jsstring;
  logo : jsstring;
  url : jsstring;
  tvgId : jsstring;
  tvgName : jsstring
}.

Definition set_title (c : Channel) (v : jsstring) : Channel :=
  mkChannel (id c) v (group c) (logo c) (url c) (tvgId c) (tvgName c).
Definition set_group (c : Channel) (v : jsstring) : Channel :=
  mkChannel (id c) (title c) v (logo c) (url c) (tvgId c) (tvgName c).
Definition set_logo (c : Channel) (v : jsstring) : Channel :=
  mkChannel (id c) (title c) (group c) v (url c) (tvgId c) (tvgName c).
Definition set_url (c : Channel) (v : jsstring) : Channel :=
  mkChannel (id c) (title c) (group c) (logo c) v (tvgId c) (tvgName c).
Definition set_tvgId (c : Channel) (v : jsstring) : Channel :=
  mkChannel (id c) (title c) (group c) (logo c) (url c) v (tvgName c).
Definition set_tvgName (c : Channel) (v : jsstring) : Channel :=
  mkChannel (id c) (title c) (group c) (logo c) (url c) (tvgId c) v.

(** [if (m) c.field = m[1]] *)
Definition assign_if (set : Channel -> jsstring -> Channel)
    (m : option jsstring) (c : Channel) : Channel :=
  match m with
  | Some v => set c v
  | None => c
  end.

Definition EXTINF : jsstring := js "#EXTINF:".
Definition group_title_lit : jsstring := js "group-title=" ++ [JS.dquote].
Definition tvg_logo_lit : jsstring := js "tvg-logo=" ++ [JS.dquote].
Definition tvg_id_lit : jsstring := js "tvg-id=" ++ [JS.dquote].
Definition tvg_name_lit : jsstring := js "tvg-name=" ++ [JS.dquote].
Definition Uncategorized : jsstring := js "Uncategorized".

(** [content.split('\n').map(l => l.trim()).filter(Boolean)] *)
Definition lines_of (content : jsstring) : list jsstring :=
  filter JS.truthy_str (List.map JS.trim (JS.split JS.LF content)).

(** The body of the [#EXTINF:] branch: the record created for the metadata
    line [line] at index [i] when [Date.now()] returns [t]. *)
Definition open_record (t : Z) (i : nat) (line : jsstring) : Channel :=
  let current := mkChannel (t + Z.of_nat i) [] Uncategorized [] [] [] [] in
  let current :=
    assign_if set_title (option_map JS.trim (JS.match_title line)) current in
  let current := assign_if set_group (JS.match_attr group_title_lit line) current in
  let current := assign_if set_logo (JS.match_attr tvg_logo_lit line) current in
  let current := assign_if set_tvgId (JS.match_attr tvg_id_lit line) current in
  assign_if set_tvgName (JS.match_attr tvg_name_lit line) current.

(** The state of the [for] loop: the number of calls of [Date.now()] made so
    far, [current] ([None] for [null]) and the array [channels]. *)
Record LoopState := mkLoop {
  ticks : nat;
  current : option Channel;
  channels : list Channel
}.

(** One iteration, on the line [line] of index [i].  [now k] is what the
    [k]-th call of [Date.now()] inside this call of [parseM3U] returns. *)
Definition step (now : nat -> Z) (i : nat) (line : jsstring) (st : LoopState)
    : LoopState :=
  if JS.startsWith EXTINF line then
    mkLoop (S (ticks st)) (Some (open_record (now (ticks st)) i line)) (channels st)
  else
    match current st with
    | Some cur =>
        if negb (JS.startsWith [JS.hash] line) then
          mkLoop (ticks st) None (channels st ++ [set_url cur line])
        else st
    | None => st
    end.

(** [for (let i = ...; i < lines.length; i++)] over the remaining lines. *)
Fixpoint loop (now : nat -> Z) (lines : list jsstring) (i : nat) (st : LoopState)
    : LoopState :=
  match lines with
  | [] => st
  | line :: rest => loop now rest (S i) (step now i line st)
  end.

Definition parseM3U (now : nat -> Z) (content : jsstring) : list Channel :=
  channels (loop now (lines_of content) 0 (mkLoop 0 None [])).

(* ------------------------------------------------------------------ *)
(** ** Provenance of the emitted records

    The same loop with ghost data: the index of the metadata line that opened
    a record and the index of the URI line that closed it.  Erasing the ghost
    data gives [loop] back ([loop_src_erase] below). *)

Record Traced := mkTraced {
  meta_index : nat;
  uri_index : nat;
  emitted : Channel
}.

Record SrcState := mkSrc {
  s_ticks : nat;
  s_current : option (nat * Channel);
  s_channels : list Traced
}.

Definition step_src (now : nat -> Z) (i : nat) (line : jsstring) (st : SrcState)
    : SrcState :=
  if JS.startsWith EXTINF line then
    mkSrc (S (s_ticks st)) (Some (i, open_record (now (s_ticks st)) i line))
          (s_channels st)
  else
    match s_current st with
    | Some (m, cur) =>
        if negb (JS.startsWith [JS.hash] line) then
          mkSrc (s_ticks st) None (s_channels st ++ [mkTraced m i (set_url cur line)])
        else st
    | None => st
    end.

Fixpoint loop_src (now : nat -> Z) (lines : list jsstring) (i : nat)
    (st : SrcState) : SrcState :=
  match lines with
  | [] => st
  | line :: rest => loop_src now rest (S i) (step_src now i line st)
  end.

Definition parseM3U_src (now : nat -> Z) (content : jsstring) : list Traced :=
  s_channels (loop_src now (lines_of content) 0 (mkSrc 0 None [])).

Definition erase (st : SrcState) : LoopState :=
  mkLoop (s_ticks st) (option_map snd (s_current st))
         (List.map emitted (s_channels st)).

(** The three kinds of line the loop tells apart. *)
Definition is_meta (line : jsstring) : bool := JS.startsWith EXTINF line.
Definition is_uri (line : jsstring) : bool := negb (JS.startsWith [JS.hash] line).

(** The value of an attribute field: the capture, or the default. *)
Definition attr_or (default lit line : jsstring) : jsstring :=
  match JS.match_attr lit line with
  | Some v => v
  | None => default
  end.

(** [lit] occurs in [line] with a closing double quote somewhere behind it. *)
Definition attr_present (lit line : jsstring) : Prop :=
  exists p v r, line = p ++ lit ++ v ++ JS.dquote :: r.

(** [add_id n c]: the record [c] with [n] added to its [id]. *)
Definition add_id (n : nat) (c : Channel) : Channel :=
  mkChannel (id c + Z.of_nat n) (title c) (group c) (logo c) (url c)
            (tvgId c) (tvgName c).

(** The title as the written specification words it: everything behind the
    last comma of the line (the empty string when the line has no comma).
    This follows the specification, not the source; it is what the source is
    compared with. *)
Fixpoint after_last_comma (line : jsstring) : jsstring :=
  match line with
  | [] => []
  | c :: t =>
      if existsb (N.eqb JS.comma) t then after_last_comma t
      else if (c =? JS.comma)%N then t else []
  end.

(* ------------------------------------------------------------------ *)
(** ** decodeURIComponent *)

(** An evaluation either completes with a value or throws; of a thrown error
    the handlers use nothing but its [message]. *)
Inductive Completion (A : Type) : Type :=
| Normal (a : A)
| Throw (message : jsstring).
Arguments Throw {A} message.

Module URI.

Definition hex_digit (c : JS.char) : option N :=
  if (48 <=? c)%N && (c <=? 57)%N then Some (c - 48)%N
  else if (65 <=? c)%N && (c <=? 70)%N then Some (c - 55)%N
  else if (97 <=? c)%N && (c <=? 102)%N then Some (c - 87)%N
  else None.

Definition is_continuation (b : N) : bool := (128 <=? b)%N && (b <=? 191)%N.

(** The code point a sequence of two to four octets encodes in UTF-8; [None]
    when the sequence is not the valid encoding of a code point (a bad
    continuation octet, an overlong form, a surrogate, or above U+10FFFF). *)
Definition code_point (octets : list N) : option N :=
  match octets with
  | [a; b] =>
      let v := ((a - 192) * 64 + (b - 128))%N in
      if is_continuation b && (128 <=? v)%N then Some v else None
  | [a; b; c] =>
      let v := ((a - 224) * 4096 + (b - 128) * 64 + (c - 128))%N in
      if is_continuation b && is_continuation c && (2048 <=? v)%N
         && negb ((55296 <=? v)%N && (v <=? 57343)%N)
      then Some v else None
  | [a; b; c; d] =>
      let v := ((a - 240) * 262144 + (b - 128) * 4096 + (c - 128) * 64
                + (d - 128))%N in
      if is_continuation b && is_continuation c && is_continuation d
         && (65536 <=? v)%N && (v <=? 1114111)%N
      then Some v else None
  | _ => None
  end.

(** UTF16EncodeCodePoint *)
Definition utf16 (v : N) : jsstring :=
  if (v <? 65536)%N then [v]
  else [(55296 + (v - 65536) / 1024)%N; (56320 + (v - 65536) mod 1024)%N].

(** The number of octets the sequence led by [b] has, from the leading one
    bits of [b]: one for none, [None] for one or more than four. *)
Definition sequence_length (b : N) : option nat :=
  if (b <? 128)%N then Some 1
  else if (b <? 192)%N then None
  else if (b <? 224)%N then Some 2
  else if (b <? 240)%N then Some 3
  else if (b <? 248)%N then Some 4
  else None.

(** Where the scan of the abstract operation Decode stands: in front of a
    code unit, behind a percent sign, or behind a percent sign and one
    hexadecimal digit. *)
Inductive Phase := AtUnit | AfterPercent | AfterDigit (high : N).

(** [octets]: the octets read so far of an unfinished sequence; [need]: how
    many more it takes. *)
Record Scan := mkScan {
  phase : Phase;
  octets : list N;
  need : nat
}.

Definition start : Scan := mkScan AtUnit [] 0.

(** An octet [b] has been read in state [st]: the next state and the code
    units to append to the result, or [None] for a URIError. *)
Definition octet_read (st : Scan) (b : N) : option (Scan * jsstring) :=
  match need st with
  | O =>
      match sequence_length b with
      | Some 1 => Some (start, [b])
      | Some (S n) => Some (mkScan AtUnit [b] n, [])
      | _ => None
      end
  | S O =>
      match code_point (octets st ++ [b]) with
      | Some v => Some (start, utf16 v)
      | None => None
      end
  | S n => Some (mkScan AtUnit (octets st ++ [b]) n, [])
  end.

Definition unit_read (st : Scan) (c : JS.char) : option (Scan * jsstring) :=
  match phase st with
  | AtUnit =>
      if (c =? JS.percent)%N then Some (mkScan AfterPercent (octets st) (need st), [])
      else match need st with
           | O => Some (st, [c])
           | S _ => None
           end
  | AfterPercent =>
      match hex_digit c with
      | Some h => Some (mkScan (AfterDigit h) (octets st) (need st), [])
      | None => None
      end
  | AfterDigit h =>
      match hex_digit c with
      | Some l => octet_read st (16 * h + l)%N
      | None => None
      end
  end.

Fixpoint scan (st : Scan) (s : jsstring) : option jsstring :=
  match s with
  | [] =>
      match phase st, need st with
      | AtUnit, O => Some []
      | _, _ => None
      end
  | c :: t =>
      match unit_read st c with
      | Some (st', out) =>
          match scan st' t with
          | Some r => Some (out ++ r)
          | None => None
          end
      | None => None
      end
  end.

(** Decode with an empty set of preserved escapes; [None] is the URIError. *)
Definition decode (s : jsstring) : option jsstring := scan start s.

End URI.

(* ------------------------------------------------------------------ *)
(** ** Values, requests and responses *)

(** The values a handler meets: what [JSON.parse] builds for a request body,
    what the HTTP client hands back as [response.data], and [undefined] for a
    property that is absent.  A readable stream stands for its content. *)
Inductive jsvalue :=
| VUndefined
| VNull
| VBool (b : bool)
| VNumber (x : spec_float)
| VString (s : jsstring)
| VArray (items : list jsvalue)
| VObject (fields : list (jsstring * jsvalue))
| VStream (content : list N).

(** ToBoolean *)
Definition truthy (v : jsvalue) : bool :=
  match v with
  | VUndefined | VNull => false
  | VBool b => b
  | VNumber (S754_zero _) | VNumber S754_nan => false
  | VNumber _ => true
  | VString s => JS.truthy_str s
  | VArray _ | VObject _ | VStream _ => true
  end.

(** [a === b] on strings. *)
Fixpoint str_eqb (a b : jsstring) : bool :=
  match a, b with
  | [], [] => true
  | x :: a', y :: b' => (x =? y)%N && str_eqb a' b'
  | _, _ => false
  end.

(** [o.key] on the own properties [fields]; [undefined] when absent. *)
Fixpoint get (key : jsstring) (fields : list (jsstring * jsvalue)) : jsvalue :=
  match fields with
  | [] => VUndefined
  | (k, v) :: rest => if str_eqb k key then v else get key rest
  end.

(** A value of [req.query] as the query parser builds it: a string, an array
    or an object. *)
Inductive qsvalue :=
| QString (s : jsstring)
| QArray (items : list qsvalue)
| QObject (fields : list (jsstring * qsvalue)).

Fixpoint qs_get (key : jsstring) (fields : list (jsstring * qsvalue))
    : option qsvalue :=
  match fields with
  | [] => None
  | (k, v) :: rest => if str_eqb k key then Some v else qs_get key rest
  end.

(** ToBoolean of a query property; [None] is [undefined]. *)
Definition qs_truthy (v : option qsvalue) : bool :=
  match v with
  | None => false
  | Some (QString s) => JS.truthy_str s
  | Some _ => true
  end.

(** [Array.prototype.join] with a comma. *)
Fixpoint join_comma (parts : list jsstring) : jsstring :=
  match parts with
  | [] => []
  | [s] => s
  | s :: rest => s ++ JS.comma :: join_comma rest
  end.

(** ToString of a query value. *)
Fixpoint ToString (v : qsvalue) : jsstring :=
  match v with
  | QString s => s
  | QArray items => join_comma (List.map ToString items)
  | QObject _ => js "[object Object]"
  end.

(** ToString of a query property; [None] is [undefined]. *)
Definition ToString_property (v : option qsvalue) : jsstring :=
  match v with
  | Some q => ToString q
  | None => js "undefined"
  end.

(** The faults of the engine the handlers can run into.  The text of their
    messages is the engine's and not part of the source: it is a field of the
    environment. *)
Inductive Fault :=
| CannotDestructure (property : jsstring)   (* const { p } = undefined *)
| NoProperties (property : jsstring)        (* undefined.p or null.p *)
| NotAFunction (callee : jsstring)          (* v.p() where v.p is no function *)
| URIMalformed                              (* decodeURIComponent *)
| InvalidHeaderValue (name : jsstring).     (* res.setHeader *)

(** What the handlers take from their surroundings: the readings of
    [Date.now()] by call number, the messages of the engine, and
    [path.basename] of the platform. *)
Record Env := mkEnv {
  now : nat -> Z;
  fault_message : Fault -> jsstring;
  basename : jsstring -> jsstring
}.

Definition throw {A} (E : Env) (f : Fault) : Completion A :=
  Throw (fault_message E f).

(** [decodeURIComponent(v)] *)
Definition decodeURIComponent (E : Env) (v : option qsvalue)
    : Completion jsstring :=
  match URI.decode (ToString_property v) with
  | Some s => Normal s
  | None => throw E URIMalformed
  end.

(** [parseM3U(v)] for an arbitrary value: only a string has [split]. *)
Definition parseM3U_value (E : Env) (v : jsvalue) : Completion (list Channel) :=
  match v with
  | VString s => Normal (parseM3U (now E) s)
  | VUndefined | VNull => throw E (NoProperties (js "split"))
  | _ => throw E (NotAFunction (js "content.split"))
  end.

Record Request := mkRequest {
  body : option (list (jsstring * jsvalue));   (* [None]: req.body undefined *)
  query : list (jsstring * qsvalue)
}.

Inductive Method := GET | HEAD.
Inductive ResponseType := text | stream.

(** The request handed to the HTTP client. *)
Record AxiosConfig := mkConfig {
  c_method : Method;
  c_url : jsvalue;
  c_responseType : option ResponseType;
  c_timeout : Z;
  c_userAgent : jsstring
}.

Record UpstreamResponse := mkUpstream {
  up_status : Z;
  up_headers : list (jsstring * jsstring);
  up_data : jsvalue
}.

(** The promise of the HTTP client settles: with a response, or rejected
    with an error of the given message. *)
Inductive Outcome :=
| Resolved (r : UpstreamResponse)
| Rejected (message : jsstring).

Fixpoint header (name : jsstring) (hs : list (jsstring * jsstring))
    : option jsstring :=
  match hs with
  | [] => None
  | (k, v) :: rest => if str_eqb k name then Some v else header name rest
  end.

(** What a handler writes as the body of its response. *)
Inductive Payload :=
| error_body (error : jsstring)                            (* { error } *)
| channels_body (channels : list Channel) (count : nat)    (* { channels, count } *)
| alive_body (contentType : option jsstring) (status : Z)  (* { alive: true, contentType, status } *)
| dead_body (error : jsstring)                             (* { alive: false, error } *)
| sent_body (data : jsvalue)                               (* res.send(data) *)
| piped_body (content : list N).                           (* data.pipe(res) *)

(** [r_headers]: the headers the handler sets itself with [setHeader],
    latest first; what Express adds or completes when it sends the response
    (the charset of a body given to [res.send], say) is not part of it. *)
Record Response := mkResponse {
  r_status : Z;
  r_headers : list (jsstring * jsstring);
  r_body : Payload
}.

(** [res.json(p)] and [res.status(n).json(p)] on a response with the headers
    [hs] set. *)
Definition json (status : Z) (hs : list (jsstring * jsstring)) (p : Payload)
    : Response :=
  mkResponse status hs p.

(** A handler either answers at once or awaits the HTTP client and answers
    from the outcome. *)
Inductive Action :=
| Respond (r : Response)
| Await (config : AxiosConfig) (k : Outcome -> Response).

Definition run (axios : AxiosConfig -> Outcome) (a : Action) : Response :=
  match a with
  | Respond r => r
  | Await config k => k (axios config)
  end.

(** The request a handler dispatches, if it dispatches one. *)
Definition dispatched (a : Action) : option AxiosConfig :=
  match a with
  | Respond _ => None
  | Await config _ => Some config
  end.

(* ------------------------------------------------------------------ *)
(** ** The route handlers *)

Definition user_agent : jsstring := js "IPTV-Player/1.0".

(** [v || d] for a header value [v] that may be undefined. *)
Definition or_default (v : option jsstring) (d : jsstring) : jsstring :=
  match v with
  | Some s => if JS.truthy_str s then s else d
  | None => d
  end.

(** The check of [res.setHeader] on a value: tabs, printable ASCII and the
    code units 128 to 255 pass. *)
Definition header_value_ok (v : jsstring) : bool :=
  forallb (fun c => (c =? 9)%N || ((32 <=? c)%N && (c <=? 126)%N)
                    || ((128 <=? c)%N && (c <=? 255)%N)) v.

(** A run of [res.setHeader(name, value)] calls in the order of [todo] on a
    response with the headers [hs]: the headers set when the run ends, and
    the message of the error that ended it early, if any. *)
Fixpoint setHeaders (E : Env) (todo hs : list (jsstring * jsstring))
    : list (jsstring * jsstring) * option jsstring :=
  match todo with
  | [] => (hs, None)
  | (name, value) :: rest =>
      if header_value_ok value then setHeaders E rest ((name, value) :: hs)
      else (hs, Some (fault_message E (InvalidHeaderValue name)))
  end.

(** [data.pipe(res)] *)
Definition pipe (E : Env) (data : jsvalue) : Completion (list N) :=
  match data with
  | VStream content => Normal content
  | VUndefined | VNull => throw E (NoProperties (js "pipe"))
  | _ => throw E (NotAFunction (js "response.data.pipe"))
  end.

(** The tail the two streaming handlers share: set the headers [todo], pipe
    the upstream body; an error on the way goes to the [catch] clause, which
    answers 500 with [prefix] in front of the message. *)
Definition stream_back (E : Env) (prefix : jsstring)
    (todo : list (jsstring * jsstring)) (data : jsvalue) : Response :=
  match setHeaders E todo [] with
  | (hs, Some message) => json 500 hs (error_body (prefix ++ message))
  | (hs, None) =>
      match pipe E data with
      | Normal content => mkResponse 200 hs (piped_body content)
      | Throw message => json 500 hs (error_body (prefix ++ message))
      end
  end.

(** POST /api/m3u/url *)
Definition m3u_url (E : Env) (req : Request) : Action :=
  let failed := js "Failed to fetch M3U: " in
  match body req with
  | None =>
      Respond (json 500 [] (error_body
        (failed ++ fault_message E (CannotDestructure (js "url")))))
  | Some fields =>
      let url := get (js "url") fields in
      if negb (truthy url) then Respond (json 400 [] (error_body (js "URL required")))
      else
        Await (mkConfig GET url (Some text) 30000 user_agent)
          (fun outcome =>
             match outcome with
             | Rejected message => json 500 [] (error_body (failed ++ message))
             | Resolved response =>
                 match parseM3U_value E (up_data response) with
                 | Normal channels =>
                     json 200 [] (channels_body channels (length channels))
                 | Throw message => json 500 [] (error_body (failed ++ message))
                 end
             end)
  end.

(** POST /api/m3u/text *)
Definition m3u_text (E : Env) (req : Request) : Action :=
  let failed := js "Failed to parse M3U: " in
  match body req with
  | None =>
      Respond (json 500 [] (error_body
        (failed ++ fault_message E (CannotDestructure (js "content")))))
  | Some fields =>
      let content := get (js "content") fields in
      if negb (truthy content) then
        Respond (json 400 [] (error_body (js "Content required")))
      else
        match parseM3U_value E content with
        | Normal channels =>
            Respond (json 200 [] (channels_body channels (length channels)))
        | Throw message => Respond (json 500 [] (error_body (failed ++ message)))
        end
  end.

(** GET /api/proxy/stream *)
Definition proxy_stream (E : Env) (req : Request) : Action :=
  let failed := js "Proxy error: " in
  let url := qs_get (js "url") (query req) in
  if negb (qs_truthy url) then
    Respond (json 400 [] (error_body (js "URL required")))
  else
    match decodeURIComponent E url with
    | Throw message => Respond (json 500 [] (error_body (failed ++ message)))
    | Normal decoded =>
        Await (mkConfig GET (VString decoded) (Some stream) 15000 user_agent)
          (fun outcome =>
             match outcome with
             | Rejected message => json 500 [] (error_body (failed ++ message))
             | Resolved response =>
                 stream_back E failed
                   [(js "Content-Type",
                     or_default (header (js "content-type") (up_headers response))
                                (js "video/mp2t"));
                    (js "Access-Control-Allow-Origin", js "*")]
                   (up_data response)
             end)
    end.

(** POST /api/stream/check *)
Definition stream_check (E : Env) (req : Request) : Action :=
  match body req with
  | None =>
      Respond (json 200 [] (dead_body (fault_message E (CannotDestructure (js "url")))))
  | Some fields =>
      let url := get (js "url") fields in
      Await (mkConfig HEAD url None 8000 user_agent)
        (fun outcome =>
           match outcome with
           | Resolved response =>
               json 200 [] (alive_body (header (js "content-type") (up_headers response))
                                       (up_status response))
           | Rejected message => json 200 [] (dead_body message)
           end)
  end.

(** POST /api/epg/fetch *)
Definition epg_fetch (E : Env) (req : Request) : Action :=
  let failed := js "Failed to fetch EPG: " in
  match body req with
  | None =>
      Respond (json 500 [] (error_body
        (failed ++ fault_message E (CannotDestructure (js "url")))))
  | Some fields =>
      let url := get (js "url") fields in
      if negb (truthy url) then
        Respond (json 400 [] (error_body (js "EPG URL required")))
      else
        Await (mkConfig GET url (Some text) 30000 user_agent)
          (fun outcome =>
             match outcome with
             | Rejected message => json 500 [] (error_body (failed ++ message))
             | Resolved response =>
                 match setHeaders E [(js "Content-Type", js "application/xml")] [] with
                 | (hs, None) => mkResponse 200 hs (sent_body (up_data response))
                 | (hs, Some message) => json 500 hs (error_body (failed ++ message))
                 end
             end)
  end.

(** GET /api/download *)
Definition download (E : Env) (req : Request) : Action :=
  let failed := js "Download failed: " in
  let url := qs_get (js "url") (query req) in
  let filename := qs_get (js "filename") (query req) in
  if negb (qs_truthy url) then
    Respond (json 400 [] (error_body (js "URL required")))
  else
    match decodeURIComponent E url with
    | Throw message => Respond (json 500 [] (error_body (failed ++ message)))
    | Normal decodedUrl =>
        let name :=
          if qs_truthy filename then decodeURIComponent E filename
          else Normal (or_default (Some (basename E decodedUrl)) (js "video.mp4")) in
        match name with
        | Throw message => Respond (json 500 [] (error_body (failed ++ message)))
        | Normal name =>
            Await (mkConfig GET (VString decodedUrl) (Some stream) 60000 user_agent)
              (fun outcome =>
                 match outcome with
                 | Rejected message => json 500 [] (error_body (failed ++ message))
                 | Resolved response =>
                     let contentLength :=
                       header (js "content-length") (up_headers response) in
                     stream_back E failed
                       ([(js "Content-Disposition",
                          js "attachment; filename=" ++ [JS.dquote] ++ name
                             ++ [JS.dquote]);
                         (js "Content-Type",
                          or_default (header (js "content-type") (up_headers response))
                                     (js "application/octet-stream"))]
                        ++ match contentLength with
                           | Some l =>
                               if JS.truthy_str l then [(js "Content-Length", l)]
                               else []
                           | None => []
                           end
                        ++ [(js "Access-Control-Allow-Origin", js "*")])
                       (up_data response)
                 end)
        end
    end.

(** The operations of the relay that take a locator from the caller, and
    where each takes it from. *)
Inductive Operation :=
| fetchPlaylist | liveStream | downloadFile | epgDocument | checkLiveness.

Definition handler (op : Operation) : Env -> Request -> Action :=
  match op with
  | fetchPlaylist => m3u_url
  | liveStream => proxy_stream
  | downloadFile => download
  | epgDocument => epg_fetch
  | checkLiveness => stream_check
  end.

(** The two GET routes read the locator from the query string, the three
    POST routes from the JSON body. *)
Definition from_query (op : Operation) : bool :=
  match op with
  | liveStream | downloadFile => true
  | fetchPlaylist | epgDocument | checkLiveness => false
  end.

(** A request that carries the string [locator] the way the route of [op]
    reads it. *)
Definition request_with (op : Operation) (locator : jsstring) : Request :=
  if from_query op then mkRequest None [(js "url", QString locator)]
  else mkRequest (Some [(js "url", VString locator)]) [].

(* ------------------------------------------------------------------ *)
(** ** Predicates the properties are stated with *)

(** The traced record [t] comes from an entry of [lines]: a metadata line at
    [meta_index t], a URI line at [uri_index t] behind it whose text is the
    record's [url], nothing but comment lines between the two, and all other
    fields as [open_record] read them off the metadata line at some reading
    [now k] of the clock. *)
Definition sourced (now : nat -> Z) (lines : list jsstring) (t : Traced) : Prop :=
  exists k lm,
    nth_error lines (meta_index t) = Some lm
    /\ is_meta lm = true
    /\ meta_index t < uri_index t
    /\ nth_error lines (uri_index t) = Some (url (emitted t))
    /\ is_uri (url (emitted t)) = true
    /\ (forall j l, meta_index t < j < uri_index t ->
                    nth_error lines j = Some l ->
                    is_meta l = false /\ is_uri l = false)
    /\ emitted t = set_url (open_record (now k) (meta_index t) lm) (url (emitted t)).

(** Each entry lies wholly in front of the next one. *)
Definition in_source_order (ts : list Traced) : Prop :=
  StronglySorted (fun a b => uri_index a < meta_index b) ts.

(** The invariant of the traced loop in front of the line of index [i]. *)
Definition loop_inv (now : nat -> Z) (lines : list jsstring) (i : nat)
    (st : SrcState) : Prop :=
  Forall (sourced now lines) (s_channels st)
  /\ in_source_order (s_channels st)
  /\ Forall (fun t => uri_index t < i) (s_channels st)
  /\ match s_current st with
     | None => True
     | Some (m, cur) =>
         m < i
         /\ (exists k lm, nth_error lines m = Some lm /\ is_meta lm = true
                          /\ cur = open_record (now k) m lm)
         /\ (forall j l, m < j < i -> nth_error lines j = Some l ->
                         is_meta l = false /\ is_uri l = false)
         /\ Forall (fun t => uri_index t < m) (s_channels st)
     end.

Definition opt_list {A} (o : option A) : list A :=
  match o with Some a => [a] | None => [] end.

(** The invariant of the loop on the [id]s: those given out so far ascend,
    and all lie below the sum of the next reading and the next index. *)
Definition ids_inv (now : nat -> Z) (i : nat) (st : LoopState) : Prop :=
  StronglySorted Z.lt (List.map id (channels st ++ opt_list (current st)))
  /\ Forall (fun c => (id c < now (ticks st) + Z.of_nat i)%Z)
            (channels st ++ opt_list (current st)).

(** [shift n st]: the loop state [st] with [n] added to every [id]. *)
Definition shift (n : nat) (st : LoopState) : LoopState :=
  mkLoop (ticks st) (option_map (add_id n) (current st))
         (List.map (add_id n) (channels st)).

(** A clock that never runs backwards. *)
Definition non_decreasing (now : nat -> Z) : Prop :=
  forall a b, a <= b -> (now a <= now b)%Z.

(** A string without line terminator inside and without space at either
    end: what [split], [trim] and the title expression hand on unchanged. *)
Definition verbatim (s : jsstring) : Prop :=
  s <> [] /\ JS.trim s = s /\ forallb JS.is_dot s = true.

(** A URI line that reaches the loop as it is written. *)
Definition uri_line (s : jsstring) : Prop :=
  s <> [] /\ JS.trim s = s /\ ~ In JS.LF s /\ is_uri s = true.

(** A two-line entry as a generator writes it: the marker, the text
    [e_head] in front of the comma that introduces the title, the title, and
    the URI line. *)
Record Entry := mkEntry {
  e_head : jsstring;
  e_title : jsstring;
  e_uri : jsstring
}.

Definition meta_line (e : Entry) : jsstring :=
  EXTINF ++ e_head e ++ JS.comma :: e_title e.

Definition entry_lines (e : Entry) : list jsstring := [meta_line e; e_uri e].

(** [ls.join('\n')] *)
Fixpoint join_lines (ls : list jsstring) : jsstring :=
  match ls with
  | [] => []
  | [l] => l
  | l :: rest => l ++ JS.LF :: join_lines rest
  end.

(** The document that lists the entries [es] one after the other. *)
Definition document (es : list Entry) : jsstring :=
  join_lines (flat_map entry_lines es).

(** The records the loop emits for the entries [es] when the first of them
    starts at line [i] and at the [k]-th reading of the clock. *)
Fixpoint records (now : nat -> Z) (i k : nat) (es : list Entry) : list Channel :=
  match es with
  | [] => []
  | e :: rest =>
      set_url (open_record (now k) i (meta_line e)) (e_uri e)
      :: records now (S (S i)) (S k) rest
  end.

(** Well-formed as the written specification has it, the title being the
    text behind the last comma of the metadata line: the title holds no
    comma, whatever stands in front of it. *)
Definition entry_last_comma (e : Entry) : Prop :=
  ~ In JS.LF (e_head e) /\ ~ In JS.comma (e_title e)
  /\ verbatim (e_title e) /\ uri_line (e_uri e).

(** Well-formed for the code, which takes the text behind the first comma:
    no comma stands in front of the one that introduces the title. *)
Definition entry_first_comma (e : Entry) : Prop :=
  ~ In JS.LF (e_head e) /\ ~ In JS.comma (e_head e)
  /\ verbatim (e_title e) /\ uri_line (e_uri e).

(** The round trip as the written specification has it. *)
Definition round_trip_last_comma : Prop :=
  forall now es,
    Forall entry_last_comma es ->
    List.map url (parseM3U now (document es)) = List.map e_uri es
    /\ List.map title (parseM3U now (document es)) = List.map e_title es.

(** The title rule as the written specification has it. *)
Definition title_after_last_comma : Prop :=
  forall now content t lm,
    In t (parseM3U_src now content) ->
    nth_error (lines_of content) (meta_index t) = Some lm ->
    title (emitted t) = after_last_comma lm.

(** The documents the examples run on. *)
Definition quoted (s : jsstring) : jsstring := JS.dquote :: s ++ [JS.dquote].

Definition doc_two_commas : jsstring :=
  js "#EXTINF:-1,A,B" ++ JS.LF :: js "http://example.com/1.ts".

Definition head_quoted_comma : jsstring :=
  js "-1 group-title=" ++ quoted (js "News, Local").

Definition line_tvg_id : jsstring :=
  js "#EXTINF:-1 tvg-id=" ++ quoted (js "5") ++ js ",Title".

Definition doc_dangling : jsstring :=
  js "#EXTINF:-1,First" ++ JS.LF :: js "# a comment" ++ JS.LF ::
  js "#EXTINF:-1,Second" ++ JS.LF :: js "http://example.com/2.ts".

Definition doc_bare_uris : jsstring :=
  js "#EXTM3U" ++ JS.LF :: js "http://example.com/0.ts" ++ JS.LF ::
  js "#EXTINF:-1,One" ++ JS.LF :: js "http://example.com/1.ts" ++ JS.LF ::
  js "http://example.com/stray.ts".

Definition doc_three : jsstring :=
  js "#EXTINF:-1,One" ++ JS.LF :: js "http://example.com/1.ts" ++ JS.LF ::
  js "#EXTINF:-1,Two" ++ JS.LF :: js "http://example.com/2.ts" ++ JS.LF ::
  js "#EXTINF:-1,Three" ++ JS.LF :: js "http://example.com/3.ts".

Definition doc_comments : jsstring :=
  js "#EXTM3U" ++ JS.LF :: js "  " ++ JS.LF :: js "# only comments here".

(** The relay as the written specification has it: whatever the operation,
    the URL handed to the HTTP client is the percent-decoded locator. *)
Definition locators_always_decoded : Prop :=
  forall E op locator decoded config,
    URI.decode locator = Some decoded ->
    dispatched (handler op E (request_with op locator)) = Some config ->
    c_url config = VString decoded.

(** A response of the liveness check as the written specification has it:
    status 200 and either the alive shape or the dead shape with a non-empty
    error. *)
Definition liveness_answer (r : Response) : Prop :=
  r_status r = 200%Z
  /\ match r_body r with
     | alive_body _ _ => True
     | dead_body error => error <> []
     | _ => False
     end.

Definition liveness_error_never_empty : Prop :=
  forall E axios req, liveness_answer (run axios (stream_check E req)).

Definition doc_entries : list Entry :=
  [mkEntry (js "-1") (js "A,B") (js "http://example.com/1.ts");
   mkEntry (js "-1 tvg-id=" ++ quoted (js "5")) (js "Title") (js "http://example.com/5.ts")].

Definition zero_clock : nat -> Z := fun _ => 0%Z.
Definition ticking_clock : nat -> Z := fun k => (1700000000000 + Z.of_nat k)%Z.

Definition stepping_back_clock : nat -> Z :=
  fun k => match k with O => 2%Z | _ => 0%Z end.

(** An environment for the examples; the messages and [basename] are
    stand-ins, no example depends on them. *)
Definition example_env : Env :=
  mkEnv ticking_clock (fun _ => js "fault") (fun path => path).

(* ------------------------------------------------------------------ *)
(** ** Further predicates on documents *)

(** [m] and [u] are the lines of an entry of [lines]: a metadata line, a URI
    line behind it, and nothing but comment lines between the two. *)
Definition is_entry (lines : list jsstring) (m u : nat) : Prop :=
  exists lm lu,
    nth_error lines m = Some lm /\ is_meta lm = true
    /\ nth_error lines u = Some lu /\ is_uri lu = true
    /\ m < u
    /\ (forall j l, m < j < u -> nth_error lines j = Some l ->
                    is_meta l = false /\ is_uri l = false).

(** The invariant of the traced loop that says no entry is lost. *)
Definition complete_inv (lines : list jsstring) (i : nat) (st : SrcState) : Prop :=
  (forall m u, is_entry lines m u -> u < i ->
     exists t, In t (s_channels st) /\ meta_index t = m /\ uri_index t = u)
  /\ (forall m lm, m < i -> nth_error lines m = Some lm -> is_meta lm = true ->
        (forall j l, m < j < i -> nth_error lines j = Some l ->
                     is_meta l = false /\ is_uri l = false) ->
        exists cur, s_current st = Some (m, cur)).

(** The document [s] with every line feed turned into carriage return and
    line feed. *)
Fixpoint crlf (s : jsstring) : jsstring :=
  match s with
  | [] => []
  | c :: t => if (c =? JS.LF)%N then JS.CR :: JS.LF :: crlf t else c :: crlf t
  end.

(** Whether a record is open behind the lines [lines], given whether one was
    open in front of them: the last line that is no comment decides. *)
Fixpoint ends_open (lines : list jsstring) (open : bool) : bool :=
  match lines with
  | [] => open
  | l :: rest =>
      ends_open rest (if is_meta l then true else if is_uri l then false else open)
  end.

Definition is_some {A} (o : option A) : bool :=
  match o with Some _ => true | None => false end.

(** The loop state [st] of a document that follows [n] lines holding [k]
    metadata lines which gave the records [front]. *)
Definition framed (k n : nat) (front : list Channel) (st : LoopState) : LoopState :=
  mkLoop (k + ticks st) (option_map (add_id n) (current st))
         (front ++ List.map (add_id n) (channels st)).

(** The clock as a call sees it that starts after [k] readings. *)
Definition later (k : nat) (now : nat -> Z) : nat -> Z := fun j => now (k + j).

(** The number of metadata lines of a document. *)
Definition meta_count (content : jsstring) : nat :=
  length (filter is_meta (lines_of content)).

Definition uri_count (content : jsstring) : nat :=
  length (filter is_uri (lines_of content)).

(** The fields of a record the clock has no part in. *)
Definition without_id (c : Channel) : Channel :=
  mkChannel 0 (title c) (group c) (logo c) (url c) (tvgId c) (tvgName c).

(** The four attributes of a metadata line, the key of each as it stands in
    the line in front of the opening double quote, and the field it fills. *)
Inductive Attribute := GroupTitle | TvgLogo | TvgId | TvgName.

Definition attr_key (a : Attribute) : jsstring :=
  match a with
  | GroupTitle => js "group-title="
  | TvgLogo => js "tvg-logo="
  | TvgId => js "tvg-id="
  | TvgName => js "tvg-name="
  end.

Definition attr_field (a : Attribute) (c : Channel) : jsstring :=
  match a with
  | GroupTitle => group c
  | TvgLogo => logo c
  | TvgId => tvgId c
  | TvgName => tvgName c
  end.

Definition attr_default (a : Attribute) : jsstring :=
  match a with
  | GroupTitle => Uncategorized
  | TvgLogo | TvgId | TvgName => []
  end.

(** A metadata line with a malformed attribute: behind [p] the attribute [a]
    with the value [v] but without its closing double quote, a space, then
    the attribute [b] with the value [w], well formed, and [r]. *)
Definition unclosed_line (a b : Attribute) (p v w r : jsstring) : jsstring :=
  p ++ (attr_key a ++ [JS.dquote]) ++ v ++ js " "
    ++ (attr_key b ++ [JS.dquote]) ++ w ++ JS.dquote :: r.

(** [s.includes(lit)] *)
Fixpoint contains (lit s : jsstring) : bool :=
  JS.startsWith lit s
  || match s with
     | [] => false
     | _ :: t => contains lit t
     end.

(** The loop state with the [id]s blanked. *)
Definition blank_ids (st : LoopState) : LoopState :=
  mkLoop (ticks st) (option_map without_id (current st))
         (List.map without_id (channels st)).

Definition doc_no_comma : jsstring :=
  js "#EXTINF:-1 Channel One" ++ JS.LF :: js "http://example.com/1.ts".

(** The rule for a malformed attribute as the written specification has it:
    the field of an attribute that lacks its closing double quote keeps its
    default. *)
Definition unclosed_keeps_default : Prop :=
  forall now content t a b p v w r,
    In t (parseM3U_src now content) ->
    nth_error (lines_of content) (meta_index t)
    = Some (unclosed_line a b p v w r) ->
    contains (attr_key a ++ [JS.dquote]) (p ++ attr_key a) = false ->
    ~ In JS.dquote v ->
    attr_field a (emitted t) = attr_default a.

Definition doc_unclosed : jsstring :=
  unclosed_line TvgLogo GroupTitle (js "#EXTINF:-1 ") (js "http://l/x.png")
                (js "G") (js ",T")
  ++ JS.LF :: js "http://example.com/1.ts".

Definition doc_attributes : jsstring :=
  js "#EXTINF:-1 tvg-id=" ++ quoted (js "5") ++ js " group-title="
    ++ quoted (js "News, Local") ++ js " tvg-id=" ++ quoted (js "6")
    ++ js ",Channel" ++ JS.LF :: js "http://example.com/5.ts".

(* ------------------------------------------------------------------ *)
(** ** The upload route and the tables of the routes *)

(** POST /api/m3u/upload.  [file] is the buffer of [req.file], [None] when
    no file came with the request; [utf8] is [Buffer.prototype.toString]
    with the encoding utf-8, which is total. *)
Definition m3u_upload (E : Env) (utf8 : list N -> jsstring)
    (file : option (list N)) : Action :=
  let failed := js "Failed to parse M3U: " in
  match file with
  | None => Respond (json 400 [] (error_body (js "File required")))
  | Some buffer =>
      let content := utf8 buffer in
      match parseM3U_value E (VString content) with
      | Normal channels =>
          Respond (json 200 [] (channels_body channels (length channels)))
      | Throw message => Respond (json 500 [] (error_body (failed ++ message)))
      end
  end.

(** What each route passes to the HTTP client beside the URL, what it puts
    in front of the message of an error, and what it answers to a request
    without locator. *)
Definition timeout_of (op : Operation) : Z :=
  match op with
  | fetchPlaylist => 30000
  | liveStream => 15000
  | downloadFile => 60000
  | epgDocument => 30000
  | checkLiveness => 8000
  end.

Definition method_of (op : Operation) : Method :=
  match op with
  | checkLiveness => HEAD
  | _ => GET
  end.

Definition responseType_of (op : Operation) : option ResponseType :=
  match op with
  | fetchPlaylist | epgDocument => Some text
  | liveStream | downloadFile => Some stream
  | checkLiveness => None
  end.

Definition failure_prefix (op : Operation) : jsstring :=
  match op with
  | fetchPlaylist => js "Failed to fetch M3U: "
  | liveStream => js "Proxy error: "
  | downloadFile => js "Download failed: "
  | epgDocument => js "Failed to fetch EPG: "
  | checkLiveness => []
  end.

Definition missing_message (op : Operation) : jsstring :=
  match op with
  | epgDocument => js "EPG URL required"
  | _ => js "URL required"
  end.

(** The request reaches the check [if (!url)] of the route and fails it. *)
Definition locator_falsy (op : Operation) (req : Request) : bool :=
  if from_query op then negb (qs_truthy (qs_get (js "url") (query req)))
  else match body req with
       | Some fields => negb (truthy (get (js "url") fields))
       | None => false
       end.

(** [v] when it is a non-empty string, as [if (v)] lets it through. *)
Definition when_truthy (v : option jsstring) : option jsstring :=
  match v with
  | Some s => if JS.truthy_str s then Some s else None
  | None => None
  end.

(** The file name the download route offers: the decoded [filename] of the
    query when there is one, else the base name of the decoded URL, else
    [video.mp4]. *)
Definition download_name (E : Env) (req : Request) (decodedUrl : jsstring)
    : Completion jsstring :=
  if qs_truthy (qs_get (js "filename") (query req))
  then decodeURIComponent E (qs_get (js "filename") (query req))
  else Normal (or_default (Some (basename E decodedUrl)) (js "video.mp4")).

Definition download_request : Request :=
  mkRequest None [(js "url", QString (js "http://example.com/films/a%20b.mp4"));
                  (js "filename", QString (js "A%20film.mp4"))].

Definition download_upstream : UpstreamResponse :=
  mkUpstream 200 [(js "content-type", js "video/mp4"); (js "content-length", js "4")]
             (VStream [0; 1; 2; 255]%N).

Definition headers_ok (r : Response) : Prop :=
  Forall (fun h => header_value_ok (snd h) = true) (r_headers r).

(* ------------------------------------------------------------------ *)
(** ** The favourites of the player ([App], the second source file)

    [favorites] holds channel records as the backend returns them; the state
    update of [toggleFavorite] is the function React applies to the previous
    list. *)

(** [favorites.some(f => f.url === channel?.url)]; [None] is a [channel]
    that is null or undefined.  Every favourite is a record with a [url], as
    the backend returns them; for such a list no entry equals the undefined
    URL of a missing channel.  A list that holds entries without [url] (the
    stored list is not checked when it is read back) is outside this model. *)
Definition isFavorite (favorites : list Channel) (channel : option Channel)
    : bool :=
  existsb (fun f => match channel with
                    | Some c => str_eqb (url f) (url c)
                    | None => false
                    end) favorites.

(** The update [prev => ...] of [toggleFavorite(channel)]. *)
Definition toggleFavorite (channel : Channel) (prev : list Channel)
    : list Channel :=
  match find (fun f => str_eqb (url f) (url channel)) prev with
  | Some _ => filter (fun f => negb (str_eqb (url f) (url channel))) prev
  | None => prev ++ [channel]
  end.

Definition channel_at (u : jsstring) (name : jsstring) : Channel :=
  mkChannel 0 name Uncategorized [] u [] [].

Definition some_favorites : list Channel :=
  [channel_at (js "http://example.com/1.ts") (js "One");
   channel_at (js "http://example.com/2.ts") (js "Two")].

(* ------------------------------------------------------------------ *)
(** ** Strings *)

Section Strings.

Lemma drop_spaces_length (s : jsstring) :
  length (JS.drop_spaces s) <= length s.
Proof.
  induction s as [|c t IH]; simpl; [lia|].
  destruct (JS.is_space c); simpl; lia.
Qed.

Lemma drop_spaces_fixed (s : jsstring) :
  length (JS.drop_spaces s) = length s -> JS.drop_spaces s = s.
Proof.
  destruct s as [|c t]; simpl; [reflexivity|].
  destruct (JS.is_space c); [|reflexivity].
  intros H. pose proof (drop_spaces_length t). lia.
Qed.

(** A string that [trim] leaves alone has no space at either end. *)
Lemma trim_fixed (s : jsstring) :
  JS.trim s = s <->
  JS.drop_spaces s = s /\ JS.drop_spaces (rev s) = rev s.
Proof.
  unfold JS.trim. split.
  - intros H.
    assert (L : length (JS.drop_spaces (rev (JS.drop_spaces s))) = length s).
    { rewrite <- H at 2. now rewrite length_rev. }
    pose proof (drop_spaces_length (rev (JS.drop_spaces s))) as L1.
    rewrite length_rev in L1.
    pose proof (drop_spaces_length s) as L2.
    assert (D : JS.drop_spaces s = s) by (apply drop_spaces_fixed; lia).
    split; [exact D|].
    rewrite D in H. rewrite <- H at 2. now rewrite rev_involutive.
  - intros [H1 H2]. rewrite H1, H2. apply rev_involutive.
Qed.

Lemma drop_spaces_app (s r : jsstring) :
  s <> [] -> JS.drop_spaces s = s -> JS.drop_spaces (s ++ r) = s ++ r.
Proof.
  destruct s as [|c t]; [congruence|]. simpl. intros _.
  destruct (JS.is_space c) eqn:E; [|reflexivity].
  intros H. pose proof (drop_spaces_length t) as L.
  rewrite H in L. simpl in L. lia.
Qed.

(** A line that starts with a code unit that is no space and ends with a
    non-empty trimmed string is trimmed. *)
Lemma trim_framed (a : JS.char) (m r : jsstring) :
  JS.is_space a = false -> r <> [] -> JS.trim r = r ->
  JS.trim (a :: m ++ r) = a :: m ++ r.
Proof.
  intros Ha Hr Ht. apply trim_fixed in Ht. destruct Ht as [_ Ht].
  apply trim_fixed. split.
  - simpl. now rewrite Ha.
  - change (a :: m ++ r) with ((a :: m) ++ r). rewrite rev_app_distr.
    apply drop_spaces_app; [|exact Ht].
    intros E. apply (f_equal (@rev _)) in E. rewrite rev_involutive in E.
    now apply Hr.
Qed.

Lemma split_nonempty (sep : JS.char) (s : jsstring) : JS.split sep s <> [].
Proof.
  destruct s as [|c t]; simpl; [discriminate|].
  destruct (c =? sep)%N; [discriminate|].
  destruct (JS.split sep t); discriminate.
Qed.

Lemma split_app (sep : JS.char) (a b : jsstring) :
  JS.split sep (a ++ sep :: b) = JS.split sep a ++ JS.split sep b.
Proof.
  induction a as [|c t IH]; simpl.
  - now rewrite N.eqb_refl.
  - destruct (c =? sep)%N.
    + now rewrite IH.
    + rewrite IH. pose proof (split_nonempty sep t) as NE.
      destruct (JS.split sep t); [congruence|reflexivity].
Qed.

Lemma split_plain (sep : JS.char) (s : jsstring) :
  ~ In sep s -> JS.split sep s = [s].
Proof.
  induction s as [|c t IH]; simpl; [reflexivity|].
  intros H. destruct (N.eqb_spec c sep) as [->|_].
  - exfalso. apply H. now left.
  - rewrite IH; [reflexivity|]. intros I. apply H. now right.
Qed.

Lemma lines_of_app (a b : jsstring) :
  lines_of (a ++ JS.LF :: b) = lines_of a ++ lines_of b.
Proof.
  unfold lines_of. now rewrite split_app, map_app, filter_app.
Qed.

Lemma lines_of_line (s : jsstring) :
  ~ In JS.LF s -> s <> [] -> JS.trim s = s -> lines_of s = [s].
Proof.
  intros H NE T. unfold lines_of. rewrite split_plain by exact H.
  simpl. rewrite T. destruct s; [congruence|reflexivity].
Qed.

Lemma lines_of_truthy (content : jsstring) :
  Forall (fun l => l <> []) (lines_of content).
Proof.
  apply Forall_forall. intros l H. apply filter_In in H.
  destruct H as [_ H]. destruct l; [discriminate|discriminate].
Qed.

Lemma startsWith_app (p s : jsstring) : JS.startsWith p (p ++ s) = true.
Proof.
  induction p as [|a p IH]; simpl; [reflexivity|].
  now rewrite N.eqb_refl.
Qed.

Lemma meta_not_uri (l : jsstring) : is_meta l = true -> is_uri l = false.
Proof.
  unfold is_meta, is_uri.
  change EXTINF with (JS.hash :: js "EXTINF:").
  destruct l as [|c t]; cbn [JS.startsWith]; [discriminate|].
  intros H. apply andb_true_iff in H. destruct H as [H _].
  now rewrite H.
Qed.

End Strings.

(* ------------------------------------------------------------------ *)
(** ** The record a metadata line opens *)

Section OpenRecord.

Variables (t : Z) (i : nat) (line : jsstring).

Ltac fields :=
  unfold open_record;
  destruct (option_map JS.trim (JS.match_title line));
  destruct (JS.match_attr group_title_lit line);
  destruct (JS.match_attr tvg_logo_lit line);
  destruct (JS.match_attr tvg_id_lit line);
  destruct (JS.match_attr tvg_name_lit line);
  reflexivity.

Lemma open_record_id : id (open_record t i line) = (t + Z.of_nat i)%Z.
Proof. fields. Qed.

Lemma open_record_url : url (open_record t i line) = [].
Proof. fields. Qed.

Lemma open_record_title :
  title (open_record t i line) =
  match JS.match_title line with Some v => JS.trim v | None => [] end.
Proof.
  unfold open_record.
  destruct (JS.match_title line);
  destruct (JS.match_attr group_title_lit line);
  destruct (JS.match_attr tvg_logo_lit line);
  destruct (JS.match_attr tvg_id_lit line);
  destruct (JS.match_attr tvg_name_lit line);
  reflexivity.
Qed.

Lemma open_record_group :
  group (open_record t i line) = attr_or Uncategorized group_title_lit line.
Proof. unfold attr_or. fields. Qed.

Lemma open_record_logo :
  logo (open_record t i line) = attr_or [] tvg_logo_lit line.
Proof. unfold attr_or. fields. Qed.

Lemma open_record_tvgId :
  tvgId (open_record t i line) = attr_or [] tvg_id_lit line.
Proof. unfold attr_or. fields. Qed.

Lemma open_record_tvgName :
  tvgName (open_record t i line) = attr_or [] tvg_name_lit line.
Proof. unfold attr_or. fields. Qed.

Lemma open_record_shift (n : nat) :
  open_record t (n + i) line = add_id n (open_record t i line).
Proof.
  unfold open_record, add_id;
  destruct (option_map JS.trim (JS.match_title line));
  destruct (JS.match_attr group_title_lit line);
  destruct (JS.match_attr tvg_logo_lit line);
  destruct (JS.match_attr tvg_id_lit line);
  destruct (JS.match_attr tvg_name_lit line);
  cbv [assign_if set_title set_group set_logo set_tvgId set_tvgName
       id title group logo url tvgId tvgName];
  f_equal; lia.
Qed.

End OpenRecord.

(* ------------------------------------------------------------------ *)
(** ** The regular expressions *)

Section Matching.

#[local] Arguments N.eqb : simpl never.

Lemma after_prefix_sound (p s rest : jsstring) :
  JS.after_prefix p s = Some rest -> s = p ++ rest.
Proof.
  revert s. induction p as [|a p IH]; intros [|b s]; simpl; try congruence.
  destruct (N.eqb_spec a b) as [->|_]; [|discriminate].
  intros H. now rewrite (IH _ H).
Qed.

Lemma after_prefix_app (p rest : jsstring) :
  JS.after_prefix p (p ++ rest) = Some rest.
Proof.
  induction p as [|a p IH]; simpl; [reflexivity|]. now rewrite N.eqb_refl.
Qed.

Lemma until_dquote_sound (s v : jsstring) :
  JS.until_dquote s = Some v ->
  ~ In JS.dquote v /\ exists r, s = v ++ JS.dquote :: r.
Proof.
  revert v. induction s as [|c s IH]; simpl; [discriminate|].
  intros v. destruct (N.eqb_spec c JS.dquote) as [->|NE].
  - intros [= <-]. split; [intros []|]. now exists s.
  - destruct (JS.until_dquote s) as [w|]; [|discriminate].
    intros [= <-]. destruct (IH w eq_refl) as [NI [r ->]].
    split; [|now exists r].
    intros [E|I]; [now apply NE|now apply NI].
Qed.

Lemma until_dquote_some (v r : jsstring) :
  exists w, JS.until_dquote (v ++ JS.dquote :: r) = Some w.
Proof.
  induction v as [|c v [w IH]]; cbn [JS.until_dquote app].
  - rewrite N.eqb_refl. now exists [].
  - destruct (c =? JS.dquote)%N; [now exists []|]. rewrite IH. now exists (c :: w).
Qed.

(** What an attribute expression captures stands in the line, verbatim and
    free of double quotes, between the literal and a closing double quote. *)
Lemma match_attr_sound (lit s v : jsstring) :
  JS.match_attr lit s = Some v ->
  ~ In JS.dquote v /\ exists p r, s = p ++ lit ++ v ++ JS.dquote :: r.
Proof.
  induction s as [|c s IH].
  - simpl. unfold JS.attr_here.
    destruct (JS.after_prefix lit []) as [rest|] eqn:A; [|discriminate].
    destruct (JS.until_dquote rest) as [w|] eqn:U; [|discriminate].
    intros [= <-]. apply after_prefix_sound in A.
    destruct (until_dquote_sound _ U) as [NI [r ->]].
    split; [exact NI|]. now exists [], r.
  - cbn [JS.match_attr]. unfold JS.attr_here.
    destruct (JS.after_prefix lit (c :: s)) as [rest|] eqn:A.
    + destruct (JS.until_dquote rest) as [w|] eqn:U.
      * intros [= <-]. apply after_prefix_sound in A.
        destruct (until_dquote_sound _ U) as [NI [r ->]].
        split; [exact NI|]. now exists [], r.
      * intros H. destruct (IH H) as [NI [p [r ->]]].
        split; [exact NI|]. now exists (c :: p), r.
    + intros H. destruct (IH H) as [NI [p [r ->]]].
      split; [exact NI|]. now exists (c :: p), r.
Qed.

(** Where the literal stands with a closing double quote behind it, the
    expression matches. *)
Lemma match_attr_complete (lit line : jsstring) :
  attr_present lit line -> exists v, JS.match_attr lit line = Some v.
Proof.
  intros [p [v [r ->]]]. induction p as [|c p [w IH]].
  - simpl app. destruct (until_dquote_some v r) as [w U].
    exists w. destruct (lit ++ v ++ JS.dquote :: r) eqn:E;
      cbn [JS.match_attr]; unfold JS.attr_here; rewrite <- E;
      now rewrite after_prefix_app, U.
  - change ((c :: p) ++ lit ++ v ++ JS.dquote :: r)
      with (c :: (p ++ lit ++ v ++ JS.dquote :: r)).
    cbn [JS.match_attr].
    destruct (JS.attr_here lit (c :: p ++ lit ++ v ++ JS.dquote :: r)) as [u|].
    + now exists u.
    + now exists w.
Qed.

Lemma attr_absent (default lit line : jsstring) :
  ~ attr_present lit line -> attr_or default lit line = default.
Proof.
  intros H. unfold attr_or.
  destruct (JS.match_attr lit line) as [v|] eqn:M; [|reflexivity].
  exfalso. apply H. destruct (match_attr_sound _ _ M) as [_ [p [r ->]]].
  now exists p, v, r.
Qed.

(** The title expression matches at the first comma when the rest of the
    line is not empty and holds no line terminator, and captures that rest. *)
Lemma match_title_first (pre rest : jsstring) :
  ~ In JS.comma pre -> forallb JS.is_dot rest = true ->
  JS.match_title (pre ++ JS.comma :: rest) =
  match rest with [] => None | _ :: _ => Some rest end.
Proof.
  intros NI D. induction pre as [|c pre IH]; cbn [JS.match_title app].
  - rewrite N.eqb_refl, D. destruct rest; reflexivity.
  - destruct (N.eqb_spec c JS.comma) as [->|_].
    + exfalso. apply NI. now left.
    + cbn [andb]. apply IH. intros I. apply NI. now right.
Qed.

Lemma title_first_comma (t : Z) (i : nat) (pre rest : jsstring) :
  ~ In JS.comma pre -> forallb JS.is_dot rest = true ->
  title (open_record t i (pre ++ JS.comma :: rest)) = JS.trim rest.
Proof.
  intros NI D. rewrite open_record_title, match_title_first by assumption.
  now destruct rest.
Qed.

End Matching.

(* ------------------------------------------------------------------ *)
(** ** The loop *)

Section Loop.

Variable now : nat -> Z.

Lemma step_src_erase (i : nat) (line : jsstring) (st : SrcState) :
  erase (step_src now i line st) = step now i line (erase st).
Proof.
  unfold step_src, step, erase.
  destruct (JS.startsWith EXTINF line); [reflexivity|].
  destruct st as [k [[m cur]|] chans]; cbn [s_current s_ticks s_channels
    current ticks channels option_map snd]; [|reflexivity].
  destruct (negb (JS.startsWith [JS.hash] line)); [|reflexivity].
  cbn [s_current s_ticks s_channels option_map].
  now rewrite map_app.
Qed.

Lemma loop_src_erase (lines : list jsstring) (i : nat) (st : SrcState) :
  erase (loop_src now lines i st) = loop now lines i (erase st).
Proof.
  revert i st. induction lines as [|line rest IH]; intros i st; simpl.
  - reflexivity.
  - now rewrite IH, step_src_erase.
Qed.

Lemma parseM3U_erase (content : jsstring) :
  parseM3U now content = List.map emitted (parseM3U_src now content).
Proof.
  unfold parseM3U, parseM3U_src.
  change (mkLoop 0 None []) with (erase (mkSrc 0 None [])).
  now rewrite <- loop_src_erase.
Qed.

Lemma sorted_snoc {A} (R : A -> A -> Prop) (l : list A) (x : A) :
  StronglySorted R l -> Forall (fun a => R a x) l -> StronglySorted R (l ++ [x]).
Proof.
  induction 1 as [|a l S IH F]; intros H; simpl.
  - constructor; constructor.
  - inversion H; subst. constructor; [now apply IH|].
    apply Forall_app. split; [exact F|]. now constructor.
Qed.

Lemma sorted_front {A} (R : A -> A -> Prop) (l r : list A) :
  StronglySorted R (l ++ r) -> StronglySorted R l.
Proof.
  induction l as [|a l IH]; simpl; intros H; [constructor|].
  inversion H; subst. constructor; [now apply IH|].
  match goal with F : Forall _ (l ++ r) |- _ => apply Forall_app in F; tauto end.
Qed.

(** One iteration keeps the invariant of the traced loop. *)
Lemma step_src_inv (lines : list jsstring) (i : nat) (line : jsstring)
    (st : SrcState) :
  nth_error lines i = Some line ->
  loop_inv now lines i st -> loop_inv now lines (S i) (step_src now i line st).
Proof.
  intros L (F & O & U & C).
  assert (U' : Forall (fun t => uri_index t < S i) (s_channels st)).
  { eapply Forall_impl; [|exact U]. cbn. intros; lia. }
  unfold step_src. destruct (JS.startsWith EXTINF line) eqn:M.
  - (* a metadata line opens a record *)
    refine (conj F (conj O (conj U' _))). cbn [s_current].
    refine (conj _ (conj _ (conj _ U))).
    + lia.
    + now exists (s_ticks st), line.
    + intros; lia.
  - destruct (s_current st) as [[m cur]|] eqn:Cur.
    + destruct C as (Lt & (k & lm & Hm & Hmeta & ->) & Btw & Below).
      destruct (negb (JS.startsWith [JS.hash] line)) eqn:Uri.
      * (* a URI line closes the open record *)
        refine (conj _ (conj _ (conj _ I))); cbn [s_channels].
        -- apply Forall_app. split; [exact F|]. constructor; [|constructor].
           exists k, lm. cbn [meta_index uri_index emitted].
           refine (conj Hm (conj Hmeta (conj Lt (conj L (conj Uri (conj Btw _)))))).
           reflexivity.
        -- apply sorted_snoc; [exact O|].
           eapply Forall_impl; [|exact Below]. now cbn.
        -- apply Forall_app. split; [exact U'|].
           constructor; [cbn; lia|constructor].
      * (* a comment line leaves the record open *)
        refine (conj F (conj O (conj U' _))). rewrite Cur.
        refine (conj _ (conj _ (conj _ Below))).
        -- lia.
        -- now exists k, lm.
        -- intros j l Hj Hl. destruct (Nat.eq_dec j i) as [->|NE].
           ++ rewrite L in Hl. injection Hl as <-. split; [exact M|].
              unfold is_uri. now rewrite Uri.
           ++ apply (Btw j l); [lia|assumption].
    + (* no record is open *)
      refine (conj F (conj O (conj U' _))). now rewrite Cur.
Qed.

Lemma loop_src_inv (lines rest : list jsstring) (i : nat) (st : SrcState) :
  (forall j l, nth_error rest j = Some l -> nth_error lines (i + j) = Some l) ->
  loop_inv now lines i st ->
  loop_inv now lines (i + length rest) (loop_src now rest i st).
Proof.
  revert i st. induction rest as [|line rest IH]; intros i st Sub Inv.
  - simpl. now rewrite Nat.add_0_r.
  - cbn [loop_src length]. replace (i + S (length rest)) with (S i + length rest) by lia.
    apply IH.
    + intros j l H. replace (S i + j) with (i + S j) by lia. now apply Sub.
    + apply step_src_inv; [|exact Inv].
      rewrite <- (Nat.add_0_r i). now apply Sub.
Qed.

(** Every record [parseM3U] emits comes from an entry of the document, and
    the entries of the emitted records follow one another in the document. *)
Lemma parseM3U_src_inv (content : jsstring) :
  Forall (sourced now (lines_of content)) (parseM3U_src now content)
  /\ in_source_order (parseM3U_src now content).
Proof.
  assert (I : loop_inv now (lines_of content) (0 + length (lines_of content))
                (loop_src now (lines_of content) 0 (mkSrc 0 None []))).
  { apply loop_src_inv; [now intros|].
    repeat split; cbn; constructor. }
  destruct I as (F & O & _). now split.
Qed.

(** Lines that are no metadata lines leave a loop without open record as it
    is. *)
Lemma loop_skips (lines : list jsstring) (i : nat) (st : LoopState) :
  Forall (fun l => is_meta l = false) lines -> current st = None ->
  loop now lines i st = st.
Proof.
  intros F. revert i. induction F as [|line rest M _ IH]; intros i C; simpl.
  - reflexivity.
  - unfold step. unfold is_meta in M. rewrite M, C. now apply IH.
Qed.

Lemma loop_app (a b : list jsstring) (i : nat) (st : LoopState) :
  loop now (a ++ b) i st = loop now b (i + length a) (loop now a i st).
Proof.
  revert i st. induction a as [|line a IH]; intros i st; simpl.
  - now rewrite Nat.add_0_r.
  - rewrite IH. f_equal. lia.
Qed.

Lemma step_shift (n i : nat) (line : jsstring) (st : LoopState) :
  step now (n + i) line (shift n st) = shift n (step now i line st).
Proof.
  destruct st as [k cur chans]. unfold step, shift.
  cbn [ticks current channels]. destruct (JS.startsWith EXTINF line).
  - cbn [option_map]. now rewrite open_record_shift.
  - destruct cur as [cur|]; cbn [option_map]; [|reflexivity].
    destruct (negb (JS.startsWith [JS.hash] line)); [|reflexivity].
    cbn [ticks current channels option_map]. now rewrite map_app.
Qed.

Lemma loop_shift (lines : list jsstring) (n i : nat) (st : LoopState) :
  loop now lines (n + i) (shift n st) = shift n (loop now lines i st).
Proof.
  revert i st. induction lines as [|line rest IH]; intros i st; simpl.
  - reflexivity.
  - rewrite step_shift. replace (S (n + i)) with (n + S i) by lia. apply IH.
Qed.

(** One iteration keeps the invariant on the [id]s when the clock does not
    run backwards. *)
Lemma step_ids_inv (i : nat) (line : jsstring) (st : LoopState) :
  non_decreasing now -> ids_inv now i st -> ids_inv now (S i) (step now i line st).
Proof.
  intros Mono [Srt Bnd]. destruct st as [k cur chans].
  cbn [ticks current channels] in Srt, Bnd.
  assert (Up : (now k <= now (S k))%Z) by (apply Mono; lia).
  rewrite map_app in Srt. apply Forall_app in Bnd. destruct Bnd as [B1 B2].
  unfold step, ids_inv. cbn [ticks current channels].
  destruct (JS.startsWith EXTINF line); cbn [ticks current channels opt_list].
  - rewrite map_app. cbn [List.map]. rewrite open_record_id. split.
    + apply sorted_snoc; [now apply sorted_front in Srt|].
      apply Forall_map. exact B1.
    + apply Forall_app. split.
      * eapply Forall_impl; [|exact B1]. cbn. intros; lia.
      * constructor; [|constructor]. rewrite open_record_id. lia.
  - destruct cur as [cur|].
    + destruct (negb (JS.startsWith [JS.hash] line));
        cbn [ticks current channels opt_list].
      * rewrite app_nil_r, map_app. split; [exact Srt|].
        apply Forall_app. split.
        -- eapply Forall_impl; [|exact B1]. cbn. intros; lia.
        -- inversion B2; subst. constructor; [|constructor].
           cbn [set_url id]. lia.
      * rewrite map_app. split; [exact Srt|].
        apply Forall_app. split.
        -- eapply Forall_impl; [|exact B1]. cbn. intros; lia.
        -- eapply Forall_impl; [|exact B2]. cbn. intros; lia.
    + rewrite map_app. split; [exact Srt|].
      apply Forall_app. split; [|constructor].
      eapply Forall_impl; [|exact B1]. cbn. intros; lia.
Qed.

Lemma loop_ids_inv (lines : list jsstring) (i : nat) (st : LoopState) :
  non_decreasing now -> ids_inv now i st ->
  ids_inv now (i + length lines) (loop now lines i st).
Proof.
  intros Mono. revert i st. induction lines as [|line rest IH]; intros i st Inv.
  - simpl. now rewrite Nat.add_0_r.
  - cbn [loop length]. replace (i + S (length rest)) with (S i + length rest) by lia.
    apply IH. now apply step_ids_inv.
Qed.

Lemma sorted_lt_NoDup (l : list Z) : StronglySorted Z.lt l -> NoDup l.
Proof.
  induction 1 as [|a l S IH F]; constructor; [|exact IH].
  intros I. rewrite Forall_forall in F. specialize (F a I). lia.
Qed.

(** A document of one metadata line and one URI line. *)
Lemma parseM3U_two_lines (meta uri : jsstring) :
  is_meta meta = true -> ~ In JS.LF meta -> JS.trim meta = meta ->
  uri <> [] -> ~ In JS.LF uri -> JS.trim uri = uri -> is_uri uri = true ->
  parseM3U now (meta ++ JS.LF :: uri) = [set_url (open_record (now 0) 0 meta) uri].
Proof.
  intros M NL T NE NLu Tu U. unfold parseM3U.
  rewrite lines_of_app, 2 lines_of_line; trivial.
  - cbn [app loop]. unfold step at 2. unfold is_meta in M. rewrite M.
    unfold step. cbn [ticks current channels].
    assert (N : JS.startsWith EXTINF uri = false).
    { destruct (JS.startsWith EXTINF uri) eqn:X; [|reflexivity].
      apply meta_not_uri in X. congruence. }
    rewrite N. unfold is_uri in U. now rewrite U.
  - intros ->. discriminate.
Qed.

End Loop.

(* ------------------------------------------------------------------ *)
(** ** Properties of the parser *)

Ltac not_in :=
  let H := fresh in
  intros H; cbv in H;
  repeat (destruct H as [H|H]; [discriminate H|]); exact H.

(** C1. Every record [parseM3U] emits has a non-empty [url], and the records
    stand in the order of their source entries: the emitted list is the list
    of traced records, each of which comes from a metadata line and a later
    URI line of the document that gives its [url], and each entry ends in
    front of the metadata line of the next. *)
Theorem parseM3U_urls_and_order (now : nat -> Z) (content : jsstring) :
  Forall (fun c => url c <> []) (parseM3U now content)
  /\ parseM3U now content = List.map emitted (parseM3U_src now content)
  /\ Forall (sourced now (lines_of content)) (parseM3U_src now content)
  /\ in_source_order (parseM3U_src now content).
Proof.
  destruct (parseM3U_src_inv now content) as [F O].
  refine (conj _ (conj (parseM3U_erase now content) (conj F O))).
  rewrite parseM3U_erase. apply Forall_map.
  eapply Forall_impl; [|exact F].
  intros t (k & lm & _ & _ & _ & Hu & _).
  pose proof (lines_of_truthy content) as T. rewrite Forall_forall in T.
  apply T. eapply nth_error_In. exact Hu.
Qed.

(** C2. A metadata line that is followed by another metadata line, or by
    the end of the input, before any URI line appears produces no record: no
    emitted record has it as its source. *)
Theorem dangling_metadata_dropped (now : nat -> Z) (content : jsstring)
    (m m' : nat) (lm : jsstring) :
  nth_error (lines_of content) m = Some lm ->
  is_meta lm = true ->
  m < m' ->
  (m' = length (lines_of content)
   \/ exists l', nth_error (lines_of content) m' = Some l' /\ is_meta l' = true) ->
  (forall j l, m < j < m' -> nth_error (lines_of content) j = Some l ->
               is_uri l = false) ->
  forall t, In t (parseM3U_src now content) -> meta_index t <> m.
Proof.
  intros Hm Meta Lt Next NoUri t In_t E.
  destruct (parseM3U_src_inv now content) as [F _].
  rewrite Forall_forall in F.
  destruct (F t In_t) as (k & lm' & _ & _ & Hlt & Hu & Uri & Btw & _).
  rewrite E in *.
  destruct (Nat.lt_trichotomy (uri_index t) m') as [Before|[At|After]].
  - rewrite (NoUri _ _ (conj Hlt Before) Hu) in Uri. discriminate.
  - destruct Next as [End|(l' & Hl' & Meta')].
    + assert (Some (url (emitted t)) <> None) as N by discriminate.
      rewrite <- Hu in N. apply nth_error_Some in N. lia.
    + rewrite At, Hl' in Hu. injection Hu as ->.
      apply meta_not_uri in Meta'. congruence.
  - destruct Next as [End|(l' & Hl' & Meta')].
    + assert (Some (url (emitted t)) <> None) as N by discriminate.
      rewrite <- Hu in N. apply nth_error_Some in N. lia.
    + destruct (Btw m' l' (conj Lt After) Hl') as [NotMeta _]. congruence.
Qed.

Lemma dangling_metadata_dropped_witness :
  Forall (fun t => meta_index t <> 0) (parseM3U_src zero_clock doc_dangling).
Proof.
  apply Forall_forall.
  apply (@dangling_metadata_dropped zero_clock doc_dangling 0 2 (js "#EXTINF:-1,First")).
  - reflexivity.
  - reflexivity.
  - lia.
  - right. exists (js "#EXTINF:-1,Second"). split; reflexivity.
  - intros j l Hj. assert (j = 1) as -> by lia.
    intros [= <-]. reflexivity.
Defined.

(** C9. Under a clock that does not run backwards the [id]s of the records
    of one call ascend strictly in the order of emission, so they are
    pairwise distinct; each [id] is the sum of a reading of the clock and the
    index of the record's metadata line. *)
Theorem ids_distinct (now : nat -> Z) (content : jsstring) :
  non_decreasing now ->
  NoDup (List.map id (parseM3U now content))
  /\ StronglySorted Z.lt (List.map id (parseM3U now content))
  /\ Forall (fun t => exists k, id (emitted t) = (now k + Z.of_nat (meta_index t))%Z)
            (parseM3U_src now content).
Proof.
  intros Mono.
  assert (S : StronglySorted Z.lt (List.map id (parseM3U now content))).
  { unfold parseM3U.
    destruct (@loop_ids_inv now (lines_of content) 0 (mkLoop 0 None []) Mono)
      as [Srt _].
    - split; cbn; constructor.
    - rewrite map_app in Srt. now apply sorted_front in Srt. }
  refine (conj (sorted_lt_NoDup S) (conj S _)).
  destruct (parseM3U_src_inv now content) as [F _].
  eapply Forall_impl; [|exact F].
  intros t (k & lm & _ & _ & _ & _ & _ & _ & E).
  exists k. rewrite E. cbn [set_url id]. apply open_record_id.
Qed.

Lemma ids_distinct_witness :
  NoDup (List.map id (parseM3U ticking_clock doc_three)).
Proof.
  apply (@ids_distinct ticking_clock doc_three).
  intros a b H. unfold ticking_clock. lia.
Defined.

(** The hypothesis on the clock is needed: when the clock steps back between
    two metadata lines, two records of one call can get the same [id]. *)
Remark ids_collide_when_clock_steps_back :
  ~ NoDup (List.map id (parseM3U stepping_back_clock doc_three)).
Proof.
  intros H. vm_compute in H. inversion H as [|x l NI _]; subst.
  apply NI. left. reflexivity.
Qed.

(** C3, as the code has it. The title of a record is the text behind the
    FIRST comma of its metadata line, trimmed, when no line terminator
    stands behind that comma; further commas are part of the title. *)
Theorem title_after_first_comma (now : nat -> Z) (content : jsstring)
    (t : Traced) (pre rest : jsstring) :
  In t (parseM3U_src now content) ->
  nth_error (lines_of content) (meta_index t) = Some (pre ++ JS.comma :: rest) ->
  ~ In JS.comma pre ->
  forallb JS.is_dot rest = true ->
  title (emitted t) = JS.trim rest.
Proof.
  intros In_t Hm NI D.
  destruct (parseM3U_src_inv now content) as [F _].
  rewrite Forall_forall in F.
  destruct (F t In_t) as (k & lm & Hm' & _ & _ & _ & _ & _ & E).
  rewrite Hm in Hm'. injection Hm' as <-.
  rewrite E. cbn [set_url title]. now apply title_first_comma.
Qed.

Lemma title_after_first_comma_witness :
  Forall (fun t => title (emitted t) = js "A,B")
         (parseM3U_src zero_clock doc_two_commas).
Proof.
  apply Forall_forall. intros t H.
  destruct (In_nth_error _ _ H) as [n Hn].
  assert (M : meta_index t = 0).
  { destruct n as [|[|n]]; [now injection Hn as <-|discriminate|discriminate]. }
  apply (@title_after_first_comma zero_clock doc_two_commas t
           (js "#EXTINF:-1") (js "A,B") H).
  - rewrite M. reflexivity.
  - not_in.
  - reflexivity.
Defined.

(** C3, as stated, fails: on the line [#EXTINF:-1,A,B] the title is [A,B],
    not the text [B] behind the last comma. *)
Lemma title_after_last_comma_fails : ~ title_after_last_comma.
Proof.
  intros H.
  specialize (H zero_clock doc_two_commas
    (mkTraced 0 1 (mkChannel 0 (js "A,B") Uncategorized [] (js "http://example.com/1.ts") [] []))
    (js "#EXTINF:-1,A,B")).
  cbv in H. specialize (H (or_introl eq_refl) eq_refl). discriminate H.
Qed.

Lemma entry_line (head ttl : jsstring) :
  ~ In JS.LF head -> verbatim ttl ->
  let line := EXTINF ++ head ++ JS.comma :: ttl in
  is_meta line = true /\ line <> [] /\ ~ In JS.LF line /\ JS.trim line = line.
Proof.
  intros NL (NE & T & D). cbn zeta. split; [apply startsWith_app|].
  split; [discriminate|]. split.
  - intros I. apply in_app_or in I. destruct I as [I|I]; [revert I; not_in|].
    apply in_app_or in I. destruct I as [I|[I|I]]; [now apply NL|discriminate I|].
    rewrite forallb_forall in D. specialize (D _ I). discriminate D.
  - change EXTINF with (JS.hash :: js "EXTINF:").
    replace ((JS.hash :: js "EXTINF:") ++ head ++ JS.comma :: ttl)
      with (JS.hash :: (js "EXTINF:" ++ head ++ [JS.comma]) ++ ttl).
    + now apply trim_framed.
    + cbn [app]. f_equal. now rewrite <- !app_assoc.
Qed.

Lemma lines_of_join (ls : list jsstring) :
  Forall (fun l => l <> [] /\ ~ In JS.LF l /\ JS.trim l = l) ls ->
  lines_of (join_lines ls) = ls.
Proof.
  induction 1 as [|l rest (NE & NL & T) F IH]; [reflexivity|].
  destruct rest as [|l' rest].
  - now apply lines_of_line.
  - change (join_lines (l :: l' :: rest)) with (l ++ JS.LF :: join_lines (l' :: rest)).
    now rewrite lines_of_app, IH, lines_of_line.
Qed.

Lemma loop_entries (now : nat -> Z) (es : list Entry) (i k : nat)
    (acc : list Channel) :
  Forall entry_first_comma es ->
  loop now (flat_map entry_lines es) i (mkLoop k None acc)
  = mkLoop (k + length es) None (acc ++ records now i k es).
Proof.
  intros F. revert i k acc.
  induction F as [|e rest (NL & NC & V & (NE & T & NLu & U)) _ IH]; intros i k acc.
  - cbn. now rewrite Nat.add_0_r, app_nil_r.
  - destruct (@entry_line (e_head e) (e_title e) NL V) as (M & _).
    cbn [flat_map entry_lines app loop]. fold (meta_line e) in M.
    unfold step at 2. unfold is_meta in M. rewrite M.
    unfold step. cbn [ticks current channels].
    assert (N : JS.startsWith EXTINF (e_uri e) = false).
    { destruct (JS.startsWith EXTINF (e_uri e)) eqn:X; [|reflexivity].
      apply meta_not_uri in X. congruence. }
    rewrite N. unfold is_uri in U. rewrite U. fold (entry_lines e).
    rewrite IH. cbn [records length]. rewrite <- app_assoc. cbn [app].
    f_equal. lia.
Qed.

Lemma records_fields (now : nat -> Z) (es : list Entry) (i k : nat) :
  Forall entry_first_comma es ->
  List.map url (records now i k es) = List.map e_uri es
  /\ List.map title (records now i k es) = List.map e_title es.
Proof.
  intros F. revert i k.
  induction F as [|e rest (NL & NC & (_ & Tt & D) & _) _ IH]; intros i k.
  - now split.
  - destruct (IH (S (S i)) (S k)) as [IHu IHt].
    cbn [records List.map set_url url title]. rewrite IHu, IHt. split; [reflexivity|].
    f_equal. unfold meta_line. rewrite app_assoc, title_first_comma; trivial.
    intros I. apply in_app_or in I.
    destruct I as [I|I]; [revert I; not_in|now apply NC].
Qed.

(** C5, as the code has it. A document of entries with no comma in front of
    the one that introduces the title, whose titles and URIs hold no line
    break and no space at either end, gives exactly one record per entry, in
    the order of the entries, with that URI as [url] and that title, commas
    included, as [title]. *)
Theorem round_trip_first_comma (now : nat -> Z) (es : list Entry) :
  Forall entry_first_comma es ->
  List.map url (parseM3U now (document es)) = List.map e_uri es
  /\ List.map title (parseM3U now (document es)) = List.map e_title es.
Proof.
  intros F. unfold parseM3U, document. rewrite lines_of_join.
  - rewrite loop_entries by exact F. cbn [channels app]. now apply records_fields.
  - apply Forall_flat_map. eapply Forall_impl; [|exact F].
    intros e (NL & NC & V & (NE & T & NLu & U)).
    destruct (@entry_line (e_head e) (e_title e) NL V) as (_ & NEl & NLl & Tl).
    repeat constructor; trivial.
Qed.

Lemma round_trip_first_comma_witness :
  List.map url (parseM3U ticking_clock (document doc_entries)) = List.map e_uri doc_entries
  /\ List.map title (parseM3U ticking_clock (document doc_entries))
     = List.map e_title doc_entries.
Proof.
  apply round_trip_first_comma.
  repeat constructor; try discriminate; try reflexivity; not_in.
Defined.

(** C5, as stated, fails: with a comma inside a quoted attribute value the
    title that comes back is not the text behind the last comma. *)
Lemma round_trip_last_comma_fails : ~ round_trip_last_comma.
Proof.
  intros H.
  destruct (H zero_clock
              [mkEntry head_quoted_comma (js "Channel One") (js "http://example.com/1.ts")])
    as [_ Ttl].
  - repeat constructor; try discriminate; try reflexivity; not_in.
  - vm_compute in Ttl. discriminate Ttl.
Qed.

(** C4. [parseM3U] returns for every string and raises for none; the empty
    document and every document without metadata line (comment lines only,
    bare URI lines only) give the empty list; lines in front of the first
    metadata line change nothing but the line indices the [id]s count from;
    and a URI line that no open record precedes is the source of no record. *)
Theorem parseM3U_total (E : Env) :
  (forall s, parseM3U_value E (VString s) = Normal (parseM3U (now E) s))
  /\ parseM3U (now E) [] = []
  /\ (forall content,
        Forall (fun l => is_meta l = false) (lines_of content) ->
        parseM3U (now E) content = [])
  /\ (forall pre rest,
        Forall (fun l => is_meta l = false) (lines_of pre) ->
        parseM3U (now E) (pre ++ JS.LF :: rest)
        = List.map (add_id (length (lines_of pre))) (parseM3U (now E) rest))
  /\ (forall content u,
        (forall m lm, m < u -> nth_error (lines_of content) m = Some lm ->
                      is_meta lm = true ->
                      exists j l, m < j < u
                                  /\ nth_error (lines_of content) j = Some l
                                  /\ is_uri l = true) ->
        forall t, In t (parseM3U_src (now E) content) -> uri_index t <> u).
Proof.
  split; [reflexivity|]. split; [reflexivity|]. split; [|split].
  - intros content F. unfold parseM3U. now rewrite loop_skips.
  - intros pre rest F. unfold parseM3U.
    rewrite lines_of_app, loop_app.
    rewrite (@loop_skips (now E) (lines_of pre) 0 (mkLoop 0 None []) F eq_refl).
    pose proof (@loop_shift (now E) (lines_of rest) (length (lines_of pre)) 0
                  (mkLoop 0 None [])) as S.
    rewrite Nat.add_0_r in S.
    change (shift (length (lines_of pre)) (mkLoop 0 None []))
      with (mkLoop 0 None []) in S.
    rewrite Nat.add_0_l, S. reflexivity.
  - intros content u Closed t In_t Eq.
    destruct (parseM3U_src_inv (now E) content) as [F _].
    rewrite Forall_forall in F.
    destruct (F t In_t) as (k & lm & Hm & Meta & Lt & _ & _ & Btw & _).
    rewrite Eq in *.
    destruct (Closed _ _ Lt Hm Meta) as (j & l & Hj & Hl & Uri).
    destruct (Btw j l Hj Hl) as [_ NotUri]. congruence.
Qed.

Lemma parseM3U_total_witness :
  parseM3U (now example_env) doc_comments = []
  /\ Forall (fun t => uri_index t <> 1 /\ uri_index t <> 4)
            (parseM3U_src (now example_env) doc_bare_uris).
Proof.
  destruct (parseM3U_total example_env) as (_ & _ & None_meta & _ & Bare).
  split.
  - apply None_meta. repeat constructor.
  - apply Forall_forall.
    intros t In_t. split; apply (Bare doc_bare_uris); trivial.
    + intros m lm Hm Hl Meta. exfalso.
      assert (m = 0) as -> by lia. injection Hl as <-. discriminate Meta.
    + intros m lm Hm Hl Meta. exists 3, (js "http://example.com/1.ts").
      destruct m as [|[|[|[|m]]]]; try lia;
        injection Hl as <-; try discriminate Meta.
      split; [lia|]. split; reflexivity.
Defined.

(* ------------------------------------------------------------------ *)
(** ** Properties of the route handlers *)

(** C10. At the inline-text route an empty string as [content] is answered
    like a missing one, with status 400 and the error [Content required];
    a response of status 200 comes from a non-empty string only, and carries
    the records [parseM3U] gives for it. *)
Theorem empty_content_rejected (E : Env) (axios : AxiosConfig -> Outcome) :
  (forall req fields,
     body req = Some fields ->
     get (js "content") fields = VString [] ->
     run axios (m3u_text E req) = json 400 [] (error_body (js "Content required")))
  /\ (forall req,
        r_status (run axios (m3u_text E req)) = 200%Z ->
        exists fields s,
          body req = Some fields
          /\ get (js "content") fields = VString s
          /\ s <> []
          /\ run axios (m3u_text E req)
             = json 200 [] (channels_body (parseM3U (now E) s)
                                          (length (parseM3U (now E) s)))).
Proof.
  split.
  - intros req fields B C. unfold m3u_text. now rewrite B, C.
  - intros req. unfold m3u_text.
    destruct (body req) as [fields|]; [|discriminate].
    destruct (get (js "content") fields) as [| |b|x|s|items|fs|c] eqn:C;
      cbn [truthy negb parseM3U_value run throw r_status json];
      try discriminate.
    + destruct b; discriminate.
    + destruct x; discriminate.
    + destruct s as [|a s]; [discriminate|]. intros _.
      exists fields, (a :: s). repeat split; trivial. discriminate.
Qed.

Lemma empty_content_rejected_witness :
  run (fun _ => Rejected []) (m3u_text example_env (mkRequest (Some [(js "content", VString [])]) []))
  = json 400 [] (error_body (js "Content required")).
Proof.
  apply (proj1 (empty_content_rejected example_env (fun _ => Rejected []))
           _ [(js "content", VString [])]); reflexivity.
Defined.

(** C7, as the code has it. The liveness check answers every request and
    every outcome of the probe with status 200: the alive shape with the
    upstream content type and status when the probe resolves, the dead shape
    with the message of the caught error, verbatim, when it is rejected or
    the body cannot be read.  The error is therefore non-empty whenever the
    messages of the errors are. *)
Theorem liveness_folds_failures (E : Env) (axios : AxiosConfig -> Outcome)
    (req : Request) :
  r_status (run axios (stream_check E req)) = 200%Z
  /\ match body req with
     | None =>
         r_body (run axios (stream_check E req))
         = dead_body (fault_message E (CannotDestructure (js "url")))
     | Some fields =>
         match axios (mkConfig HEAD (get (js "url") fields) None 8000 user_agent) with
         | Resolved response =>
             r_body (run axios (stream_check E req))
             = alive_body (header (js "content-type") (up_headers response))
                          (up_status response)
         | Rejected message =>
             r_body (run axios (stream_check E req)) = dead_body message
         end
     end
  /\ ((forall f, fault_message E f <> []) ->
      (forall config message, axios config = Rejected message -> message <> []) ->
      liveness_answer (run axios (stream_check E req))).
Proof.
  unfold stream_check, liveness_answer. destruct (body req) as [fields|]; cbn [run].
  - destruct (axios _) as [response|message] eqn:A; cbn [json r_status r_body].
    + split; [reflexivity|]. split; [reflexivity|].
      intros _ _. split; [reflexivity|exact I].
    + split; [reflexivity|]. split; [reflexivity|].
      intros _ Msg. split; [reflexivity|]. exact (Msg _ _ A).
  - cbn [json r_status r_body]. split; [reflexivity|]. split; [reflexivity|].
    intros Msg _. split; [reflexivity|]. apply Msg.
Qed.

Lemma liveness_folds_failures_witness :
  liveness_answer
    (run (fun _ => Rejected (js "timeout of 8000ms exceeded"))
         (stream_check example_env
            (mkRequest (Some [(js "url", VString (js "http://example.com/live.ts"))]) []))).
Proof.
  apply liveness_folds_failures.
  - intros f. discriminate.
  - intros config message [= <-]. discriminate.
Defined.

(** C7, as stated, fails: when the error the HTTP client rejects with has an
    empty message, the answer is the dead shape with an empty error. *)
Lemma liveness_error_never_empty_fails : ~ liveness_error_never_empty.
Proof.
  intros H.
  destruct (H example_env (fun _ => Rejected [])
              (mkRequest (Some [(js "url", VString (js "http://example.com/live.ts"))]) []))
    as [_ Body].
  cbn in Body. now apply Body.
Qed.

Lemma body_get_url (v : jsvalue) : get (js "url") [(js "url", v)] = v.
Proof. reflexivity. Qed.

Lemma query_get_url (v : qsvalue) :
  qs_get (js "url") [(js "url", v)] = Some v.
Proof. reflexivity. Qed.

Lemma query_get_filename (v : qsvalue) :
  qs_get (js "filename") [(js "url", v)] = None.
Proof. reflexivity. Qed.

(** C6, as the code has it. Only the two routes that read the locator from
    the query string decode it: the request they dispatch has
    [decodeURIComponent] of the locator as its URL, and none is dispatched
    when the decoding throws.  The three routes that read the locator from
    the JSON body hand it to the HTTP client as it is. *)
Theorem locators_decoded_from_query_only (E : Env) :
  (forall op req config,
     from_query op = true ->
     dispatched (handler op E req) = Some config ->
     exists decoded,
       decodeURIComponent E (qs_get (js "url") (query req)) = Normal decoded
       /\ c_url config = VString decoded)
  /\ (forall op req config,
        from_query op = false ->
        dispatched (handler op E req) = Some config ->
        exists fields, body req = Some fields
                       /\ c_url config = get (js "url") fields)
  /\ (forall op locator,
        locator <> [] ->
        if from_query op then
          match URI.decode locator with
          | Some decoded =>
              exists config,
                dispatched (handler op E (request_with op locator)) = Some config
                /\ c_url config = VString decoded
          | None => dispatched (handler op E (request_with op locator)) = None
          end
        else
          exists config,
            dispatched (handler op E (request_with op locator)) = Some config
            /\ c_url config = VString locator).
Proof.
  split; [|split].
  - intros op req config Q.
    destruct op; try discriminate Q; cbn [handler];
      unfold proxy_stream, download;
      destruct (negb (qs_truthy (qs_get (js "url") (query req))));
      try discriminate;
      destruct (decodeURIComponent E (qs_get (js "url") (query req)))
        as [decoded|message]; try discriminate.
    + intros [= <-]. now exists decoded.
    + destruct (qs_truthy (qs_get (js "filename") (query req))).
      * destruct (decodeURIComponent E (qs_get (js "filename") (query req)));
          [|discriminate].
        intros [= <-]. now exists decoded.
      * intros [= <-]. now exists decoded.
  - intros op req config Q.
    destruct op; try discriminate Q; cbn [handler];
      unfold m3u_url, epg_fetch, stream_check;
      (destruct (body req) as [fields|]; [|discriminate]);
      try (destruct (negb (truthy (get (js "url") fields))); [discriminate|]);
      intros [= <-]; now exists fields.
  - intros op locator NE. destruct locator as [|a l]; [congruence|].
    destruct op; unfold request_with; cbn [from_query handler];
      unfold m3u_url, proxy_stream, download, epg_fetch, stream_check;
      cbn [body query];
      rewrite ?body_get_url, ?query_get_url, ?query_get_filename;
      cbn [truthy qs_truthy JS.truthy_str negb];
      unfold decodeURIComponent; cbn [ToString_property ToString].
    + eexists. split; reflexivity.
    + destruct (URI.decode (a :: l)); [|reflexivity].
      eexists. split; reflexivity.
    + destruct (URI.decode (a :: l)); [|reflexivity].
      eexists. split; reflexivity.
    + eexists. split; reflexivity.
    + eexists. split; reflexivity.
Qed.

Lemma locators_decoded_from_query_only_witness :
  (exists config,
     dispatched (proxy_stream example_env
                   (request_with liveStream (js "http://example.com/a%20b.ts")))
     = Some config
     /\ c_url config = VString (js "http://example.com/a b.ts"))
  /\ (exists config,
        dispatched (m3u_url example_env
                      (request_with fetchPlaylist (js "http://example.com/a%20b.m3u")))
        = Some config
        /\ c_url config = VString (js "http://example.com/a%20b.m3u")).
Proof.
  destruct (locators_decoded_from_query_only example_env) as (_ & _ & H).
  split.
  - apply (H liveStream (js "http://example.com/a%20b.ts")). discriminate.
  - apply (H fetchPlaylist (js "http://example.com/a%20b.m3u")). discriminate.
Defined.

(** C6, as stated, fails: the playlist route hands a locator with an escape
    sequence to the HTTP client undecoded. *)
Lemma locators_always_decoded_fails : ~ locators_always_decoded.
Proof.
  intros H.
  specialize (H example_env fetchPlaylist (js "http://example.com/a%20b.m3u")
                (js "http://example.com/a b.m3u")
                (mkConfig GET (VString (js "http://example.com/a%20b.m3u"))
                          (Some text) 30000 user_agent)
                eq_refl eq_refl).
  discriminate H.
Qed.

(* ------------------------------------------------------------------ *)
(** ** Further properties of the parser *)

Section Completeness.

Variable now : nat -> Z.
Variable lines : list jsstring.

Lemma step_src_complete (i : nat) (line : jsstring) (st : SrcState) :
  nth_error lines i = Some line ->
  complete_inv lines i st -> complete_inv lines (S i) (step_src now i line st).
Proof.
  intros L [Done Open]. unfold step_src.
  destruct (JS.startsWith EXTINF line) eqn:M.
  - (* a metadata line *)
    split; cbn [s_channels s_current].
    + intros m u En Hu. destruct (Nat.eq_dec u i) as [->|NE].
      * destruct En as (lm & lu & _ & _ & Hlu & Uri & _).
        rewrite L in Hlu. injection Hlu as <-.
        apply meta_not_uri in M. congruence.
      * apply Done; [exact En|lia].
    + intros m lm Hm Hlm Meta Btw. destruct (Nat.eq_dec m i) as [->|NE].
      * now eexists.
      * destruct (Btw i line) as [NotMeta _]; [lia|exact L|].
        unfold is_meta in NotMeta. congruence.
  - assert (NotHere : forall m lm, m < S i -> nth_error lines m = Some lm ->
                        is_meta lm = true -> m < i).
    { intros m lm Hm Hlm Meta. destruct (Nat.eq_dec m i) as [->|NE]; [|lia].
      rewrite L in Hlm. injection Hlm as <-. unfold is_meta in Meta. congruence. }
    destruct (negb (JS.startsWith [JS.hash] line)) eqn:Uri.
    + (* a URI line *)
      assert (No_open : forall m lm, m < S i ->
                nth_error lines m = Some lm -> is_meta lm = true ->
                (forall j l, m < j < S i -> nth_error lines j = Some l ->
                             is_meta l = false /\ is_uri l = false) ->
                False).
      { intros m lm Hm Hlm Meta Btw.
        pose proof (NotHere _ _ Hm Hlm Meta) as Lt.
        destruct (Btw i line) as [_ NotUri]; [lia|exact L|].
        unfold is_uri in NotUri. congruence. }
      destruct (s_current st) as [[m0 cur]|] eqn:Cur.
      * split; cbn [s_channels s_current];
          [|intros m lm A B C D; exfalso; exact (No_open m lm A B C D)].
        intros m u En Hu. destruct (Nat.eq_dec u i) as [->|NE].
        -- exists (mkTraced m0 i (set_url cur line)). split.
           ++ apply in_or_app. right. now left.
           ++ split; [|reflexivity]. cbn [meta_index].
              destruct En as (lm & lu & Hlm & Meta & _ & _ & Lt & Btw).
              destruct (Open m lm Lt Hlm Meta Btw) as [cur' E].
              congruence.
        -- destruct (Done m u En) as (t & In_t & E); [lia|].
           exists t. split; [apply in_or_app; now left|exact E].
      * split; [|intros m lm A B C D; exfalso; exact (No_open m lm A B C D)].
        intros m u En Hu. destruct (Nat.eq_dec u i) as [->|NE].
        -- destruct En as (lm & lu & Hlm & Meta & _ & _ & Lt & Btw).
           destruct (Open m lm Lt Hlm Meta Btw) as [cur' E]. congruence.
        -- apply Done; [exact En|lia].
    + (* a comment line *)
      assert (Same : complete_inv lines (S i) st).
      { split.
        - intros m u En Hu. destruct (Nat.eq_dec u i) as [->|NE].
          + destruct En as (lm & lu & _ & _ & Hlu & U & _).
            rewrite L in Hlu. injection Hlu as <-.
            unfold is_uri in U. congruence.
          + apply Done; [exact En|lia].
        - intros m lm Hm Hlm Meta Btw.
          apply (Open m lm); trivial; [now apply (NotHere m lm)|].
          intros j l Hj. apply Btw. lia. }
      now destruct (s_current st) as [[m0 cur]|].
Qed.

Lemma loop_src_complete (rest : list jsstring) (i : nat) (st : SrcState) :
  (forall j l, nth_error rest j = Some l -> nth_error lines (i + j) = Some l) ->
  complete_inv lines i st ->
  complete_inv lines (i + length rest) (loop_src now rest i st).
Proof.
  revert i st. induction rest as [|line rest IH]; intros i st Sub Inv.
  - simpl. now rewrite Nat.add_0_r.
  - cbn [loop_src length]. replace (i + S (length rest)) with (S i + length rest) by lia.
    apply IH.
    + intros j l H. replace (S i + j) with (i + S j) by lia. now apply Sub.
    + apply step_src_complete; [|exact Inv].
      rewrite <- (Nat.add_0_r i). now apply Sub.
Qed.

End Completeness.

Lemma parseM3U_src_complete (now : nat -> Z) (content : jsstring) (m u : nat) :
  is_entry (lines_of content) m u ->
  exists t, In t (parseM3U_src now content) /\ meta_index t = m /\ uri_index t = u.
Proof.
  intros En.
  destruct (@loop_src_complete now (lines_of content) (lines_of content) 0
              (mkSrc 0 None [])) as [Done _].
  - now intros.
  - split; intros; lia.
  - apply Done; [exact En|].
    destruct En as (_ & lu & _ & _ & Hlu & _).
    cbn. apply nth_error_Some. congruence.
Qed.

(** X1. No entry is lost: a metadata line followed, behind comment lines
    only, by a URI line gives an emitted record whose [url] is that URI line
    and whose other fields are read off that metadata line. *)
Theorem every_entry_emitted (now : nat -> Z) (content : jsstring) (m u : nat)
    (lm lu : jsstring) :
  nth_error (lines_of content) m = Some lm -> is_meta lm = true ->
  nth_error (lines_of content) u = Some lu -> is_uri lu = true ->
  m < u ->
  (forall j l, m < j < u -> nth_error (lines_of content) j = Some l ->
               is_meta l = false /\ is_uri l = false) ->
  exists k, In (set_url (open_record (now k) m lm) lu) (parseM3U now content).
Proof.
  intros Hm Meta Hu Uri Lt Btw.
  destruct (@parseM3U_src_complete now content m u) as (t & In_t & Em & Eu).
  { now exists lm, lu. }
  destruct (parseM3U_src_inv now content) as [F _].
  rewrite Forall_forall in F.
  destruct (F t In_t) as (k & lm' & Hm' & _ & _ & Hu' & _ & _ & E).
  rewrite Em in *. rewrite Eu in *.
  rewrite Hm in Hm'. injection Hm' as <-.
  rewrite Hu in Hu'. injection Hu' as Hurl.
  exists k. rewrite parseM3U_erase. rewrite Hurl, <- E.
  now apply in_map.
Qed.

Lemma every_entry_emitted_witness :
  exists k, In (set_url (open_record (ticking_clock k) 2 (js "#EXTINF:-1,Second"))
                        (js "http://example.com/2.ts"))
               (parseM3U ticking_clock doc_dangling).
Proof.
  apply (@every_entry_emitted ticking_clock doc_dangling 2 3); try reflexivity.
  - lia.
  - intros j l Hj. lia.
Defined.

Section Counting.

Variable now : nat -> Z.

Lemma loop_ticks (lines : list jsstring) (i : nat) (st : LoopState) :
  ticks (loop now lines i st) = ticks st + length (filter is_meta lines).
Proof.
  revert i st. induction lines as [|line rest IH]; intros i [k cur chans];
    cbn [loop filter].
  - cbn. lia.
  - rewrite IH. unfold step, is_meta. cbn [ticks current channels].
    destruct (JS.startsWith EXTINF line); cbn [ticks length]; [lia|].
    destruct cur; [|cbn [ticks]; lia].
    destruct (negb (JS.startsWith [JS.hash] line)); cbn [ticks]; lia.
Qed.

Lemma loop_count_meta (lines : list jsstring) (i : nat) (st : LoopState) :
  length (channels (loop now lines i st))
  + length (opt_list (current (loop now lines i st)))
  <= length (channels st) + length (opt_list (current st))
     + length (filter is_meta lines).
Proof.
  revert i st. induction lines as [|line rest IH]; intros i [k cur chans];
    cbn [loop filter].
  - lia.
  - etransitivity; [apply IH|]. unfold step, is_meta. cbn [ticks current channels].
    destruct (JS.startsWith EXTINF line); cbn [ticks current channels length opt_list].
    + destruct cur; cbn [opt_list length]; lia.
    + destruct cur as [cur|]; cbn [ticks current channels length opt_list]; [|lia].
      destruct (negb (JS.startsWith [JS.hash] line));
        cbn [ticks current channels length opt_list]; [|lia].
      rewrite length_app. cbn [length]. lia.
Qed.

Lemma loop_count_uri (lines : list jsstring) (i : nat) (st : LoopState) :
  length (channels (loop now lines i st))
  <= length (channels st) + length (filter is_uri lines).
Proof.
  revert i st. induction lines as [|line rest IH]; intros i [k cur chans];
    cbn [loop filter].
  - lia.
  - etransitivity; [apply IH|]. unfold step, is_uri. cbn [ticks current channels].
    destruct (JS.startsWith EXTINF line) eqn:M; cbn [channels].
    + destruct (negb (JS.startsWith [JS.hash] line)); cbn [length]; lia.
    + destruct cur as [cur|];
        destruct (negb (JS.startsWith [JS.hash] line)); cbn [channels length];
        try lia.
      rewrite length_app. cbn [length]. lia.
Qed.

Lemma meta_uri_disjoint (lines : list jsstring) :
  length (filter is_meta lines) + length (filter is_uri lines) <= length lines.
Proof.
  induction lines as [|l rest IH]; cbn [filter length]; [lia|].
  destruct (is_meta l) eqn:M.
  - rewrite (meta_not_uri _ M). cbn [length]. lia.
  - destruct (is_uri l); cbn [length]; lia.
Qed.

End Counting.

(** X2. The parser emits at most one record per metadata line and at most
    one per URI line, hence at most one for every two lines. *)
Theorem record_count_bounded (now : nat -> Z) (content : jsstring) :
  length (parseM3U now content) <= meta_count content
  /\ length (parseM3U now content) <= uri_count content
  /\ 2 * length (parseM3U now content) <= length (lines_of content).
Proof.
  unfold parseM3U, meta_count, uri_count.
  pose proof (loop_count_meta now (lines_of content) 0 (mkLoop 0 None [])) as A.
  pose proof (loop_count_uri now (lines_of content) 0 (mkLoop 0 None [])) as B.
  pose proof (meta_uri_disjoint (lines_of content)) as C.
  cbn [channels current opt_list length] in A, B. lia.
Qed.

Section LineEnds.

#[local] Arguments N.eqb : simpl never.

Lemma drop_spaces_snoc (s : jsstring) (c : JS.char) :
  JS.is_space c = true ->
  JS.drop_spaces (s ++ [c]) =
  match JS.drop_spaces s with [] => [] | d => d ++ [c] end.
Proof.
  intros Sp. induction s as [|a s IH]; cbn [app JS.drop_spaces].
  - now rewrite Sp.
  - destruct (JS.is_space a); [exact IH|reflexivity].
Qed.

(** [trim] does not see a space added at the end. *)
Lemma trim_snoc (s : jsstring) (c : JS.char) :
  JS.is_space c = true -> JS.trim (s ++ [c]) = JS.trim s.
Proof.
  intros Sp. unfold JS.trim. rewrite drop_spaces_snoc by exact Sp.
  destruct (JS.drop_spaces s) as [|a d]; [reflexivity|].
  rewrite rev_app_distr. cbn [rev app JS.drop_spaces]. now rewrite Sp.
Qed.

Lemma split_crlf (s : jsstring) :
  Forall2 (fun p' p => p' = p \/ p' = p ++ [JS.CR])
          (JS.split JS.LF (crlf s)) (JS.split JS.LF s).
Proof.
  induction s as [|c t IH]; cbn [crlf JS.split].
  - constructor; [now left|constructor].
  - destruct (N.eqb_spec c JS.LF) as [->|NE].
    + cbn [JS.split]. change (JS.CR =? JS.LF)%N with false.
      rewrite N.eqb_refl. cbn iota. constructor; [now right|exact IH].
    + cbn [JS.split]. apply N.eqb_neq in NE. rewrite NE.
      destruct IH as [|p' p ps' ps [->| ->] F].
      * constructor; [now left|constructor].
      * constructor; [now left|exact F].
      * constructor; [now right|exact F].
Qed.

Lemma lines_of_crlf (s : jsstring) : lines_of (crlf s) = lines_of s.
Proof.
  unfold lines_of. f_equal.
  induction (split_crlf s) as [|p' p ps' ps [->| ->] _ IH]; cbn [List.map].
  - reflexivity.
  - now rewrite IH.
  - rewrite IH, trim_snoc; reflexivity.
Qed.

Lemma drop_spaces_all (s : jsstring) :
  forallb JS.is_space s = true -> JS.drop_spaces s = [].
Proof.
  induction s as [|c t IH]; cbn [forallb JS.drop_spaces]; [reflexivity|].
  intros H. apply andb_true_iff in H. destruct H as [Hc Ht].
  rewrite Hc. now apply IH.
Qed.

Lemma split_pieces (sep : JS.char) (s : jsstring) :
  Forall (fun p => forall c, In c p -> In c s /\ c <> sep) (JS.split sep s).
Proof.
  induction s as [|c t IH]; cbn [JS.split].
  - constructor; [intros c []|constructor].
  - destruct (N.eqb_spec c sep) as [->|NE].
    + constructor; [intros c []|].
      eapply Forall_impl; [|exact IH]. cbn. intros p H x I.
      destruct (H x I). split; [now right|assumption].
    + destruct (JS.split sep t) as [|p ps].
      * constructor; [|constructor]. intros x [<-|[]]. split; [now left|assumption].
      * inversion IH as [|? ? Hp Hps]; subst. constructor.
        -- intros x [<-|I]; [split; [now left|assumption]|].
           destruct (Hp x I). split; [now right|assumption].
        -- eapply Forall_impl; [|exact Hps]. cbn. intros q H x I.
           destruct (H x I). split; [now right|assumption].
Qed.

Lemma lines_of_blank (w : jsstring) :
  forallb JS.is_space w = true -> lines_of w = [].
Proof.
  intros W. unfold lines_of.
  pose proof (split_pieces JS.LF w) as P.
  induction P as [|p ps Hp _ IH]; [reflexivity|]. cbn [List.map filter].
  assert (T : JS.trim p = []).
  { assert (D : JS.drop_spaces p = []).
    { apply drop_spaces_all, forallb_forall. intros c I.
      rewrite forallb_forall in W. apply W. now destruct (Hp c I). }
    unfold JS.trim. now rewrite D. }
  rewrite T. exact IH.
Qed.

End LineEnds.

(** X3. The parser takes carriage return and line feed for a line end as it
    takes a line feed alone: a document gives the same records, [id]s
    included, with either. *)
Theorem crlf_line_ends_alike (now : nat -> Z) (content : jsstring) :
  parseM3U now (crlf content) = parseM3U now content.
Proof. unfold parseM3U. now rewrite lines_of_crlf. Qed.

(** X4. Lines of nothing but white space count for nothing: put between two
    lines of a document they change no record and no [id]. *)
Theorem blank_lines_ignored (now : nat -> Z) (a w b : jsstring) :
  forallb JS.is_space w = true ->
  parseM3U now (a ++ JS.LF :: w ++ JS.LF :: b) = parseM3U now (a ++ JS.LF :: b).
Proof.
  intros W. unfold parseM3U.
  now rewrite !lines_of_app, (lines_of_blank w W).
Qed.

Lemma blank_lines_ignored_witness :
  parseM3U ticking_clock
    (js "#EXTINF:-1,One" ++ JS.LF :: (js "  " ++ JS.LF :: [9%N; JS.CR]) ++ JS.LF ::
     js "http://example.com/1.ts")
  = parseM3U ticking_clock
      (js "#EXTINF:-1,One" ++ JS.LF :: js "http://example.com/1.ts").
Proof.
  apply (@blank_lines_ignored ticking_clock (js "#EXTINF:-1,One")
           (js "  " ++ JS.LF :: [9%N; JS.CR]) (js "http://example.com/1.ts")).
  reflexivity.
Defined.

Section Fields.

#[local] Arguments N.eqb : simpl never.

Lemma drop_spaces_suffix (s : jsstring) :
  exists p, s = p ++ JS.drop_spaces s.
Proof.
  induction s as [|c t [p IH]]; cbn [JS.drop_spaces]; [now exists []|].
  destruct (JS.is_space c); [|now exists []].
  exists (c :: p). cbn [app]. now rewrite <- IH.
Qed.

Lemma drop_spaces_idem (s : jsstring) :
  JS.drop_spaces (JS.drop_spaces s) = JS.drop_spaces s.
Proof.
  induction s as [|c t IH]; cbn [JS.drop_spaces]; [reflexivity|].
  destruct (JS.is_space c) eqn:E; [exact IH|].
  cbn [JS.drop_spaces]. now rewrite E.
Qed.

Lemma trim_sub (s : jsstring) (c : JS.char) : In c (JS.trim s) -> In c s.
Proof.
  unfold JS.trim. intros I. apply in_rev in I.
  destruct (drop_spaces_suffix (rev (JS.drop_spaces s))) as [p E].
  assert (I2 : In c (rev (JS.drop_spaces s))).
  { rewrite E. apply in_or_app. now right. }
  apply in_rev in I2.
  destruct (drop_spaces_suffix s) as [q E2]. rewrite E2.
  apply in_or_app. now right.
Qed.

Lemma trim_idem (s : jsstring) : JS.trim (JS.trim s) = JS.trim s.
Proof.
  apply trim_fixed. unfold JS.trim. split.
  - destruct (drop_spaces_suffix (rev (JS.drop_spaces s))) as [p E].
    set (e := JS.drop_spaces (rev (JS.drop_spaces s))) in *.
    destruct (rev e) as [|a r] eqn:R; [reflexivity|].
    cbn [JS.drop_spaces]. destruct (JS.is_space a) eqn:Sp; [|reflexivity].
    exfalso.
    assert (D : JS.drop_spaces s = (a :: r) ++ rev p).
    { rewrite <- R, <- rev_app_distr, <- E. now rewrite rev_involutive. }
    pose proof (drop_spaces_idem s) as Idem. rewrite D in Idem.
    cbn [app JS.drop_spaces] in Idem. rewrite Sp in Idem.
    pose proof (drop_spaces_length (r ++ rev p)) as L.
    rewrite Idem in L. cbn [length] in L. lia.
  - rewrite rev_involutive. apply drop_spaces_idem.
Qed.

(** The lines the loop runs over are non-empty, trimmed and free of line
    feeds. *)
Lemma lines_of_clean (content : jsstring) :
  Forall (fun l => l <> [] /\ JS.trim l = l /\ ~ In JS.LF l) (lines_of content).
Proof.
  apply Forall_forall. intros l I. unfold lines_of in I.
  apply filter_In in I. destruct I as [I T].
  apply in_map_iff in I. destruct I as (p & <- & Ip).
  split; [now destruct (JS.trim p)|]. split; [apply trim_idem|].
  intros ILF. apply trim_sub in ILF.
  pose proof (split_pieces JS.LF content) as P. rewrite Forall_forall in P.
  now destruct (P p Ip JS.LF ILF).
Qed.

Lemma match_title_dots (s v : jsstring) :
  JS.match_title s = Some v -> forallb JS.is_dot v = true.
Proof.
  induction s as [|c t IH]; cbn [JS.match_title]; [discriminate|].
  destruct ((c =? JS.comma)%N && JS.truthy_str t && forallb JS.is_dot t) eqn:E.
  - intros [= <-]. apply andb_true_iff in E. now destruct E.
  - exact IH.
Qed.

Lemma match_title_no_comma (s : jsstring) :
  ~ In JS.comma s -> JS.match_title s = None.
Proof.
  induction s as [|c t IH]; cbn [JS.match_title]; [reflexivity|].
  intros NI. destruct (N.eqb_spec c JS.comma) as [->|_].
  - exfalso. apply NI. now left.
  - cbn [andb]. apply IH. intros I. apply NI. now right.
Qed.

Lemma attr_or_no_dquote (default lit line : jsstring) :
  ~ In JS.dquote default -> ~ In JS.dquote (attr_or default lit line).
Proof.
  intros D. unfold attr_or.
  destruct (JS.match_attr lit line) as [v|] eqn:M; [|exact D].
  now destruct (match_attr_sound _ _ M).
Qed.

Lemma until_dquote_exact (v r : jsstring) :
  ~ In JS.dquote v -> JS.until_dquote (v ++ JS.dquote :: r) = Some v.
Proof.
  induction v as [|c v IH]; cbn [JS.until_dquote app]; intros NI.
  - now rewrite N.eqb_refl.
  - destruct (N.eqb_spec c JS.dquote) as [->|_].
    + exfalso. apply NI. now left.
    + rewrite IH; [reflexivity|]. intros I. apply NI. now right.
Qed.

Lemma after_prefix_none (lit x z : jsstring) :
  JS.startsWith lit x = false -> length lit <= length x ->
  JS.after_prefix lit (x ++ z) = None.
Proof.
  revert x. induction lit as [|a lit IH]; intros [|b x];
    cbn [JS.startsWith JS.after_prefix app length]; try discriminate; try lia.
  destruct (a =? b)%N; [|reflexivity]. cbn [andb].
  intros S L. apply IH; [exact S|lia].
Qed.

Lemma match_attr_unfold (lit s : jsstring) :
  JS.match_attr lit s =
  match JS.attr_here lit s with
  | Some v => Some v
  | None => match s with [] => None | _ :: t => JS.match_attr lit t end
  end.
Proof. now destruct s. Qed.

(** The expression of a key takes the first place where key, equals sign and
    double quote stand in the line, whatever stands in front or behind. *)
Lemma match_attr_first (key p v r : jsstring) :
  contains (key ++ [JS.dquote]) (p ++ key) = false ->
  ~ In JS.dquote v ->
  JS.match_attr (key ++ [JS.dquote]) (p ++ (key ++ [JS.dquote]) ++ v ++ JS.dquote :: r)
  = Some v.
Proof.
  intros C NI. induction p as [|c p IH].
  - rewrite match_attr_unfold. unfold JS.attr_here. cbn [app].
    now rewrite after_prefix_app, until_dquote_exact.
  - cbn [app contains] in C. apply orb_false_iff in C. destruct C as [S C].
    rewrite match_attr_unfold. unfold JS.attr_here.
    replace ((c :: p) ++ (key ++ [JS.dquote]) ++ v ++ JS.dquote :: r)
      with ((c :: p ++ key) ++ JS.dquote :: v ++ JS.dquote :: r)
      by (cbn [app]; now rewrite <- !app_assoc).
    rewrite after_prefix_none; trivial.
    + cbn [app]. rewrite <- app_assoc in IH. cbn [app] in IH.
      rewrite <- app_assoc. now apply IH.
    + rewrite length_app. cbn [length]. rewrite length_app. lia.
Qed.

Lemma open_record_without_id (t t' : Z) (i i' : nat) (line : jsstring) :
  without_id (open_record t i line) = without_id (open_record t' i' line).
Proof.
  unfold open_record, without_id;
  destruct (option_map JS.trim (JS.match_title line));
  destruct (JS.match_attr group_title_lit line);
  destruct (JS.match_attr tvg_logo_lit line);
  destruct (JS.match_attr tvg_id_lit line);
  destruct (JS.match_attr tvg_name_lit line);
  reflexivity.
Qed.

Lemma loop_blank_ids (now now' : nat -> Z) (lines : list jsstring) (i : nat)
    (st st' : LoopState) :
  blank_ids st = blank_ids st' ->
  blank_ids (loop now lines i st) = blank_ids (loop now' lines i st').
Proof.
  revert i st st'. induction lines as [|line rest IH]; intros i st st' E;
    cbn [loop]; [exact E|].
  apply IH. destruct st as [k cur chans], st' as [k' cur' chans'].
  unfold blank_ids in E. cbn [ticks current channels] in E.
  injection E as Ek Ecur Echans. subst k'.
  unfold step, blank_ids. cbn [ticks current channels].
  destruct (JS.startsWith EXTINF line); cbn [ticks current channels option_map].
  - rewrite Echans. f_equal. f_equal. apply open_record_without_id.
  - destruct cur as [cur|], cur' as [cur'|]; try discriminate;
      cbn [ticks current channels option_map]; [|now rewrite Echans].
    cbn [option_map] in Ecur.
    assert (Ec : without_id cur = without_id cur') by congruence.
    destruct (negb (JS.startsWith [JS.hash] line));
      cbn [ticks current channels option_map].
    + rewrite !map_app, Echans. cbn [List.map]. f_equal. f_equal. f_equal.
      unfold without_id in Ec. injection Ec as Et Eg El Eu Ei En.
      unfold without_id, set_url. cbn [title group logo url tvgId tvgName].
      congruence.
    + now rewrite Echans, Ec.
Qed.

End Fields.

(** X5. The [url] of an emitted record is a whole line of the document as
    the loop sees it: it has no white space at either end, holds no line
    feed and does not start with the comment marker. *)
Theorem emitted_urls_clean (now : nat -> Z) (content : jsstring) :
  Forall (fun c => JS.trim (url c) = url c
                   /\ ~ In JS.LF (url c)
                   /\ JS.startsWith [JS.hash] (url c) = false)
         (parseM3U now content).
Proof.
  rewrite parseM3U_erase. apply Forall_map.
  destruct (parseM3U_src_inv now content) as [F _].
  eapply Forall_impl; [|exact F].
  intros t (k & lm & _ & _ & _ & Hu & Uri & _).
  pose proof (lines_of_clean content) as C. rewrite Forall_forall in C.
  destruct (C _ (nth_error_In _ _ Hu)) as (_ & T & NL).
  split; [exact T|]. split; [exact NL|].
  unfold is_uri in Uri. now destruct (JS.startsWith [JS.hash] (url (emitted t))).
Qed.

(** X6. The [title] of an emitted record has no white space at either end
    and holds no line terminator. *)
Theorem emitted_titles_clean (now : nat -> Z) (content : jsstring) :
  Forall (fun c => JS.trim (title c) = title c
                   /\ forallb JS.is_dot (title c) = true)
         (parseM3U now content).
Proof.
  rewrite parseM3U_erase. apply Forall_map.
  destruct (parseM3U_src_inv now content) as [F _].
  eapply Forall_impl; [|exact F].
  intros t (k & lm & _ & _ & _ & _ & _ & _ & E).
  rewrite E. cbn [set_url title]. rewrite open_record_title.
  destruct (JS.match_title lm) as [v|] eqn:M; [|now split].
  split; [apply trim_idem|].
  apply forallb_forall. intros c I. apply trim_sub in I.
  pose proof (match_title_dots _ M) as D. rewrite forallb_forall in D. now apply D.
Qed.

(** X7. No attribute field of an emitted record holds a double quote: a
    value ends at the first double quote behind its key. *)
Theorem emitted_attributes_unquoted (now : nat -> Z) (content : jsstring) :
  Forall (fun c => forall a, ~ In JS.dquote (attr_field a c))
         (parseM3U now content).
Proof.
  rewrite parseM3U_erase. apply Forall_map.
  destruct (parseM3U_src_inv now content) as [F _].
  eapply Forall_impl; [|exact F].
  intros t (k & lm & _ & _ & _ & _ & _ & _ & E) a.
  rewrite E. destruct a; cbn [attr_field set_url group logo tvgId tvgName].
  - rewrite open_record_group. apply attr_or_no_dquote. not_in.
  - rewrite open_record_logo. apply attr_or_no_dquote. intros [].
  - rewrite open_record_tvgId. apply attr_or_no_dquote. intros [].
  - rewrite open_record_tvgName. apply attr_or_no_dquote. intros [].
Qed.

(** X8. A metadata line without comma gives a record with an empty title. *)
Theorem no_comma_no_title (now : nat -> Z) (content : jsstring) (t : Traced)
    (lm : jsstring) :
  In t (parseM3U_src now content) ->
  nth_error (lines_of content) (meta_index t) = Some lm ->
  ~ In JS.comma lm ->
  title (emitted t) = [].
Proof.
  intros In_t Hm NC.
  destruct (parseM3U_src_inv now content) as [F _].
  rewrite Forall_forall in F.
  destruct (F t In_t) as (k & lm' & Hm' & _ & _ & _ & _ & _ & E).
  rewrite Hm in Hm'. injection Hm' as <-.
  rewrite E. cbn [set_url title].
  now rewrite open_record_title, match_title_no_comma.
Qed.

Lemma no_comma_no_title_witness :
  Forall (fun t => title (emitted t) = []) (parseM3U_src zero_clock doc_no_comma).
Proof.
  apply Forall_forall. intros t H.
  destruct (In_nth_error _ _ H) as [n Hn].
  assert (M : meta_index t = 0).
  { destruct n as [|[|n]]; [now injection Hn as <-|discriminate|discriminate]. }
  apply (@no_comma_no_title zero_clock doc_no_comma t (js "#EXTINF:-1 Channel One") H).
  - rewrite M. reflexivity.
  - not_in.
Defined.

(** X9. Attributes may stand in any order and any number: the field of a key
    takes the value at the first place where the key, with its equals sign
    and opening double quote, stands in the metadata line, up to the next
    double quote; what stands in front of that place or behind the closing
    quote, the same key again included, has no part in it. *)
Theorem first_attribute_wins (now : nat -> Z) (content : jsstring) (t : Traced)
    (a : Attribute) (p v r : jsstring) :
  In t (parseM3U_src now content) ->
  nth_error (lines_of content) (meta_index t)
  = Some (p ++ (attr_key a ++ [JS.dquote]) ++ v ++ JS.dquote :: r) ->
  contains (attr_key a ++ [JS.dquote]) (p ++ attr_key a) = false ->
  ~ In JS.dquote v ->
  attr_field a (emitted t) = v.
Proof.
  intros In_t Hm C NI.
  destruct (parseM3U_src_inv now content) as [F _].
  rewrite Forall_forall in F.
  destruct (F t In_t) as (k & lm' & Hm' & _ & _ & _ & _ & _ & E).
  rewrite Hm in Hm'. injection Hm' as <-.
  pose proof (@match_attr_first (attr_key a) p v r C NI) as M.
  rewrite E. destruct a; cbn [attr_field set_url group logo tvgId tvgName].
  - rewrite open_record_group. unfold attr_or.
    change group_title_lit with (attr_key GroupTitle ++ [JS.dquote]). now rewrite M.
  - rewrite open_record_logo. unfold attr_or.
    change tvg_logo_lit with (attr_key TvgLogo ++ [JS.dquote]). now rewrite M.
  - rewrite open_record_tvgId. unfold attr_or.
    change tvg_id_lit with (attr_key TvgId ++ [JS.dquote]). now rewrite M.
  - rewrite open_record_tvgName. unfold attr_or.
    change tvg_name_lit with (attr_key TvgName ++ [JS.dquote]). now rewrite M.
Qed.

Lemma first_attribute_wins_witness :
  Forall (fun t => attr_field GroupTitle (emitted t) = js "News, Local"
                   /\ attr_field TvgId (emitted t) = js "5")
         (parseM3U_src zero_clock doc_attributes).
Proof.
  apply Forall_forall. intros t H.
  destruct (In_nth_error _ _ H) as [n Hn].
  assert (M : meta_index t = 0).
  { destruct n as [|[|n]]; [now injection Hn as <-|discriminate|discriminate]. }
  split.
  - apply (@first_attribute_wins zero_clock doc_attributes t GroupTitle
             (js "#EXTINF:-1 tvg-id=" ++ quoted (js "5") ++ js " ")
             (js "News, Local")
             (js " tvg-id=" ++ quoted (js "6") ++ js ",Channel") H).
    + rewrite M. reflexivity.
    + reflexivity.
    + not_in.
  - apply (@first_attribute_wins zero_clock doc_attributes t TvgId
             (js "#EXTINF:-1 ")
             (js "5")
             (js " group-title=" ++ quoted (js "News, Local") ++ js " tvg-id="
                ++ quoted (js "6") ++ js ",Channel") H).
    + rewrite M. reflexivity.
    + reflexivity.
    + not_in.
Defined.

(** C8, as the code has it. Attribute extraction is independent per field.
    The line [#EXTINF:-1 tvg-id=...,Title] with the quoted value [5], closed
    by a URI line, gives [tvgId] 5, [title] Title, [group] Uncategorized and
    an empty [logo]; in every emitted record each attribute field is the
    capture of its own expression on the metadata line, or its default.  A
    field keeps the default when its key, equals sign and double quote do
    not stand in the line with a double quote somewhere behind; where they
    do, the field is the text up to the next double quote, verbatim.  So an
    attribute written without its closing quote does not keep the default
    when another attribute follows: its field runs on to the quote that
    opens the value of the next one. *)
Theorem attributes_independent (now : nat -> Z) :
  (forall uri, uri_line uri ->
     parseM3U now (line_tvg_id ++ JS.LF :: uri)
     = [mkChannel (now 0 + 0) (js "Title") Uncategorized [] uri (js "5") []])
  /\ (forall content t lm,
        In t (parseM3U_src now content) ->
        nth_error (lines_of content) (meta_index t) = Some lm ->
        group (emitted t) = attr_or Uncategorized group_title_lit lm
        /\ logo (emitted t) = attr_or [] tvg_logo_lit lm
        /\ tvgId (emitted t) = attr_or [] tvg_id_lit lm
        /\ tvgName (emitted t) = attr_or [] tvg_name_lit lm)
  /\ (forall default lit line,
        ~ attr_present lit line -> attr_or default lit line = default)
  /\ (forall default lit line v,
        JS.match_attr lit line = Some v ->
        attr_or default lit line = v
        /\ ~ In JS.dquote v
        /\ exists p r, line = p ++ lit ++ v ++ JS.dquote :: r)
  /\ (forall default lit line,
        attr_present lit line ->
        exists v, JS.match_attr lit line = Some v /\ attr_or default lit line = v)
  /\ (forall content t a b p v w r,
        In t (parseM3U_src now content) ->
        nth_error (lines_of content) (meta_index t)
        = Some (unclosed_line a b p v w r) ->
        contains (attr_key a ++ [JS.dquote]) (p ++ attr_key a) = false ->
        ~ In JS.dquote v ->
        attr_field a (emitted t) = v ++ js " " ++ attr_key b).
Proof.
  split; [|split; [|split; [|split; [|split]]]].
  - intros uri (NE & T & NL & U).
    rewrite parseM3U_two_lines; trivial; try reflexivity. not_in.
  - intros content t lm In_t Hm.
    destruct (parseM3U_src_inv now content) as [F _].
    rewrite Forall_forall in F.
    destruct (F t In_t) as (k & lm' & Hm' & _ & _ & _ & _ & _ & E).
    rewrite Hm in Hm'. injection Hm' as <-. rewrite E.
    cbn [set_url group logo tvgId tvgName].
    now rewrite open_record_group, open_record_logo, open_record_tvgId,
      open_record_tvgName.
  - apply attr_absent.
  - intros default lit line v M. unfold attr_or. rewrite M.
    split; [reflexivity|]. now apply match_attr_sound.
  - intros default lit line P. destruct (match_attr_complete P) as [v M].
    exists v. unfold attr_or. now rewrite M.
  - intros content t a b p v w r In_t Hm C NI.
    destruct (parseM3U_src_inv now content) as [F _].
    rewrite Forall_forall in F.
    destruct (F t In_t) as (k & lm' & Hm' & _ & _ & _ & _ & _ & E).
    rewrite Hm in Hm'. injection Hm' as <-.
    assert (NI' : ~ In JS.dquote (v ++ js " " ++ attr_key b)).
    { intros I. apply in_app_or in I. destruct I as [I|I]; [now apply NI|].
      revert I. destruct b; not_in. }
    pose proof (@match_attr_first (attr_key a) p (v ++ js " " ++ attr_key b)
                  (w ++ JS.dquote :: r) C NI') as M.
    assert (Shape : unclosed_line a b p v w r
                    = p ++ (attr_key a ++ [JS.dquote]) ++ (v ++ js " " ++ attr_key b)
                        ++ JS.dquote :: w ++ JS.dquote :: r).
    { unfold unclosed_line. now rewrite <- !app_assoc. }
    rewrite Shape in E. rewrite E.
    destruct a; cbn [attr_field set_url group logo tvgId tvgName].
    + rewrite open_record_group. unfold attr_or.
      change group_title_lit with (attr_key GroupTitle ++ [JS.dquote]). now rewrite M.
    + rewrite open_record_logo. unfold attr_or.
      change tvg_logo_lit with (attr_key TvgLogo ++ [JS.dquote]). now rewrite M.
    + rewrite open_record_tvgId. unfold attr_or.
      change tvg_id_lit with (attr_key TvgId ++ [JS.dquote]). now rewrite M.
    + rewrite open_record_tvgName. unfold attr_or.
      change tvg_name_lit with (attr_key TvgName ++ [JS.dquote]). now rewrite M.
Qed.

Lemma attributes_independent_witness :
  parseM3U ticking_clock (line_tvg_id ++ JS.LF :: js "http://example.com/5.ts")
  = [mkChannel (ticking_clock 0 + 0) (js "Title") Uncategorized []
               (js "http://example.com/5.ts") (js "5") []].
Proof.
  apply (proj1 (attributes_independent ticking_clock)).
  split; [discriminate|]. split; [reflexivity|]. split; [not_in|reflexivity].
Defined.

(** C8, as stated, fails: on the line
    [#EXTINF:-1 tvg-logo=...http://l/x.png group-title=...G...,T], where
    the value of the logo lacks its closing quote, the logo is not the
    default but the text up to the quote that opens the group. *)
Lemma unclosed_keeps_default_fails : ~ unclosed_keeps_default.
Proof.
  intros H.
  specialize (H zero_clock doc_unclosed
    (mkTraced 0 1 (mkChannel 0 (js "T") (js "G") (js "http://l/x.png group-title=")
                             (js "http://example.com/1.ts") [] []))
    TvgLogo GroupTitle (js "#EXTINF:-1 ") (js "http://l/x.png") (js "G") (js ",T")).
  cbv in H. specialize (H (or_introl eq_refl) eq_refl eq_refl).
  assert (E : [104; 116; 116; 112; 58; 47; 47; 108; 47; 120; 46; 112; 110; 103;
               32; 103; 114; 111; 117; 112; 45; 116; 105; 116; 108; 101; 61]%N
              = @nil N).
  { apply H. intros I. repeat (destruct I as [I|I]; [discriminate I|]). exact I. }
  discriminate E.
Qed.

(** X10. The clock has a part in the [id]s only: with any two clocks a
    document gives the same records up to their [id]s. *)
Theorem only_ids_depend_on_clock (now now' : nat -> Z) (content : jsstring) :
  List.map without_id (parseM3U now content)
  = List.map without_id (parseM3U now' content).
Proof.
  unfold parseM3U.
  pose proof (@loop_blank_ids now now' (lines_of content) 0
                (mkLoop 0 None []) (mkLoop 0 None []) eq_refl) as E.
  unfold blank_ids in E. now injection E.
Qed.

Section Concatenation.

Variable now : nat -> Z.

Lemma step_framed (k n : nat) (front : list Channel) (i : nat)
    (line : jsstring) (st : LoopState) :
  step now (n + i) line (framed k n front st)
  = framed k n front (step (later k now) i line st).
Proof.
  destruct st as [j cur chans]. unfold step, framed, later.
  cbn [ticks current channels]. destruct (JS.startsWith EXTINF line).
  - cbn [ticks current channels option_map]. rewrite open_record_shift.
    f_equal. lia.
  - destruct cur as [cur|]; cbn [option_map]; [|reflexivity].
    destruct (negb (JS.startsWith [JS.hash] line)); [|reflexivity].
    cbn [ticks current channels option_map].
    now rewrite map_app, app_assoc.
Qed.

Lemma loop_framed (k n : nat) (front : list Channel) (lines : list jsstring)
    (i : nat) (st : LoopState) :
  loop now lines (n + i) (framed k n front st)
  = framed k n front (loop (later k now) lines i st).
Proof.
  revert i st. induction lines as [|line rest IH]; intros i st; cbn [loop].
  - reflexivity.
  - rewrite step_framed. replace (S (n + i)) with (n + S i) by lia. apply IH.
Qed.

Lemma loop_ends_open (lines : list jsstring) (i : nat) (st : LoopState) :
  is_some (current (loop now lines i st))
  = ends_open lines (is_some (current st)).
Proof.
  revert i st. induction lines as [|line rest IH]; intros i [k cur chans];
    cbn [loop ends_open]; [reflexivity|].
  rewrite IH. f_equal. unfold step, is_meta, is_uri. cbn [ticks current channels].
  destruct (JS.startsWith EXTINF line); [reflexivity|].
  destruct cur as [cur|];
    destruct (negb (JS.startsWith [JS.hash] line)); reflexivity.
Qed.

End Concatenation.

(** X11. Documents compose. When no record is left open at the end of [a]
    (its last line that is no comment is not a metadata line), the records of
    [a] followed by [b] are the records of [a] followed by the records of
    [b], the latter with the number of lines of [a] added to their [id]s and
    read at the clock as it stands after the metadata lines of [a]. *)
Theorem documents_compose (now : nat -> Z) (a b : jsstring) :
  ends_open (lines_of a) false = false ->
  parseM3U now (a ++ JS.LF :: b)
  = parseM3U now a
    ++ List.map (add_id (length (lines_of a)))
                (parseM3U (later (meta_count a) now) b).
Proof.
  intros Closed. unfold parseM3U. rewrite lines_of_app, loop_app.
  pose proof (loop_ticks now (lines_of a) 0 (mkLoop 0 None [])) as T.
  pose proof (loop_ends_open now (lines_of a) 0 (mkLoop 0 None [])) as O.
  destruct (loop now (lines_of a) 0 (mkLoop 0 None [])) as [k cur chans].
  cbn [ticks current channels is_some] in T, O. rewrite Closed in O.
  destruct cur as [cur|]; [discriminate|].
  pose proof (@loop_framed now k (length (lines_of a)) chans (lines_of b) 0
                (mkLoop 0 None [])) as L.
  unfold framed at 1 in L. cbn [ticks current channels option_map List.map] in L.
  rewrite !Nat.add_0_r, app_nil_r in L. rewrite Nat.add_0_l, L.
  unfold framed, meta_count. cbn [channels]. now rewrite T.
Qed.

Lemma documents_compose_witness :
  parseM3U ticking_clock (doc_two_commas ++ JS.LF :: doc_dangling)
  = parseM3U ticking_clock doc_two_commas
    ++ List.map (add_id (length (lines_of doc_two_commas)))
                (parseM3U (later (meta_count doc_two_commas) ticking_clock)
                          doc_dangling).
Proof.
  apply documents_compose. reflexivity.
Defined.

(* ------------------------------------------------------------------ *)
(** ** Further properties of the route handlers *)

Lemma setHeaders_ok (E : Env) (todo hs : list (jsstring * jsstring)) :
  Forall (fun h => header_value_ok (snd h) = true) hs ->
  Forall (fun h => header_value_ok (snd h) = true) (fst (setHeaders E todo hs)).
Proof.
  revert hs. induction todo as [|[name value] rest IH]; intros hs H;
    cbn [setHeaders]; [exact H|].
  destruct (header_value_ok value) eqn:V; [|exact H].
  apply IH. now constructor.
Qed.

Lemma setHeaders_all (E : Env) (todo hs : list (jsstring * jsstring)) :
  forallb (fun h => header_value_ok (snd h)) todo = true ->
  setHeaders E todo hs = (rev todo ++ hs, None).
Proof.
  revert hs. induction todo as [|[name value] rest IH]; intros hs H;
    cbn [setHeaders forallb snd] in *; [reflexivity|].
  apply andb_true_iff in H. destruct H as [V H]. rewrite V, IH by exact H.
  cbn [rev]. now rewrite <- app_assoc.
Qed.

Lemma stream_back_status (E : Env) (prefix : jsstring)
    (todo : list (jsstring * jsstring)) (data : jsvalue) :
  let r := stream_back E prefix todo data in
  headers_ok r
  /\ (r_status r = 200%Z
      \/ r_status r = 500%Z /\ exists message, r_body r = error_body (prefix ++ message)).
Proof.
  cbn zeta. unfold stream_back, headers_ok.
  pose proof (@setHeaders_ok E todo [] (Forall_nil _)) as Ok.
  destruct (setHeaders E todo []) as [hs [message|]]; cbn [fst] in Ok.
  - split; [exact Ok|]. right. split; [reflexivity|]. now exists message.
  - destruct (pipe E data) as [content|message].
    + split; [exact Ok|]. now left.
    + split; [exact Ok|]. right. split; [reflexivity|]. now exists message.
Qed.

(** What a handler answers, whatever the HTTP client does: the headers it
    sets pass the check of [setHeader]; the status is 200, or 400 with the
    message for a missing locator, or 500 with the prefix of the route in
    front of a message. *)
Lemma handler_answers (E : Env) (op : Operation)
    (axios : AxiosConfig -> Outcome) (req : Request) :
  let r := run axios (handler op E req) in
  headers_ok r
  /\ (r_status r = 200%Z
      \/ (r_status r = 400%Z /\ locator_falsy op req = true
          /\ r_body r = error_body (missing_message op)
          /\ dispatched (handler op E req) = None)
      \/ (r_status r = 500%Z /\ locator_falsy op req = false
          /\ exists message, r_body r = error_body (failure_prefix op ++ message))).
Proof.
  cbn zeta.
  assert (Nil : forall s p, headers_ok (json s [] p)) by (intros; constructor).
  destruct op; cbn [handler failure_prefix missing_message];
    unfold m3u_url, proxy_stream, download, epg_fetch, stream_check, locator_falsy;
    cbn [from_query].
  - (* fetchPlaylist *)
    destruct (body req) as [fields|]; cbn [run].
    + destruct (negb (truthy (get (js "url") fields))) eqn:T; cbn [run].
      * split; [apply Nil|]. right. left. now repeat split.
      * destruct (axios _) as [response|message].
        -- destruct (parseM3U_value E (up_data response)) as [chans|message].
           ++ split; [apply Nil|]. now left.
           ++ split; [apply Nil|]. right. right. repeat split. now exists message.
        -- split; [apply Nil|]. right. right. repeat split. now exists message.
    + split; [apply Nil|]. right. right. repeat split. now eexists.
  - (* liveStream *)
    destruct (negb (qs_truthy (qs_get (js "url") (query req)))) eqn:T; cbn [run].
    + split; [apply Nil|]. right. left. now repeat split.
    + destruct (decodeURIComponent E _) as [decoded|message]; cbn [run].
      * destruct (axios _) as [response|message].
        -- destruct (stream_back_status E (js "Proxy error: ")
                       [(js "Content-Type",
                         or_default (header (js "content-type") (up_headers response))
                                    (js "video/mp2t"));
                        (js "Access-Control-Allow-Origin", js "*")]
                       (up_data response)) as [Ok [S|[S M]]].
           ++ split; [exact Ok|]. now left.
           ++ split; [exact Ok|]. right. right. now repeat split.
        -- split; [apply Nil|]. right. right. repeat split. now exists message.
      * split; [apply Nil|]. right. right. repeat split. now exists message.
  - (* downloadFile *)
    destruct (negb (qs_truthy (qs_get (js "url") (query req)))) eqn:T; cbn [run].
    + split; [apply Nil|]. right. left. now repeat split.
    + destruct (decodeURIComponent E (qs_get (js "url") (query req)))
        as [decoded|message]; cbn [run].
      * match goal with
        | |- context [match ?n with Normal _ => _ | Throw _ => _ end] =>
            destruct n as [name|message]
        end; cbn [run].
        -- destruct (axios _) as [response|message].
           ++ match goal with
              | |- context [stream_back E ?p ?t ?d] =>
                  destruct (stream_back_status E p t d) as [Ok [S|[S M]]]
              end.
              ** split; [exact Ok|]. now left.
              ** split; [exact Ok|]. right. right. now repeat split.
           ++ split; [apply Nil|]. right. right. repeat split. now exists message.
        -- split; [apply Nil|]. right. right. repeat split. now exists message.
      * split; [apply Nil|]. right. right. repeat split. now exists message.
  - (* epgDocument *)
    destruct (body req) as [fields|]; cbn [run].
    + destruct (negb (truthy (get (js "url") fields))) eqn:T; cbn [run].
      * split; [apply Nil|]. right. left. now repeat split.
      * destruct (axios _) as [response|message].
        -- split; [repeat constructor|]. now left.
        -- split; [apply Nil|]. right. right. repeat split. now exists message.
    + split; [apply Nil|]. right. right. repeat split. now eexists.
  - (* checkLiveness *)
    destruct (body req) as [fields|]; cbn [run].
    + destruct (axios _); (split; [apply Nil|]); now left.
    + split; [apply Nil|]. now left.
Qed.

(** X12. The four routes that check their locator answer 400 exactly when
    it is missing or falsy (absent, the empty string, null, zero, false),
    with the message of the route and before any request goes out; a
    request without body is not among these. *)
Theorem missing_locator_rejected (E : Env) (op : Operation)
    (axios : AxiosConfig -> Outcome) (req : Request) :
  op <> checkLiveness ->
  (r_status (run axios (handler op E req)) = 400%Z <-> locator_falsy op req = true)
  /\ (locator_falsy op req = true ->
      handler op E req = Respond (json 400 [] (error_body (missing_message op)))).
Proof.
  intros NotCheck.
  assert (Falsy : locator_falsy op req = true ->
                  handler op E req = Respond (json 400 [] (error_body (missing_message op)))).
  { destruct op; try congruence; cbn [handler missing_message];
      unfold m3u_url, proxy_stream, download, epg_fetch, locator_falsy;
      cbn [from_query]; try (destruct (body req) as [fields|]; [|discriminate]);
      intros ->; reflexivity. }
  split; [|exact Falsy]. split.
  - intros S. destruct (handler_answers E op axios req) as [_ [S'|[(_ & F & _)|(S' & _)]]];
      [congruence|exact F|congruence].
  - intros F. now rewrite (Falsy F).
Qed.

Lemma missing_locator_rejected_witness :
  handler epgDocument example_env (mkRequest (Some [(js "url", VNull)]) [])
  = Respond (json 400 [] (error_body (js "EPG URL required"))).
Proof.
  apply (proj2 (@missing_locator_rejected example_env epgDocument
                  (fun _ => Rejected []) (mkRequest (Some [(js "url", VNull)]) [])
                  ltac:(discriminate))).
  reflexivity.
Defined.

(** X14. Failures are answered in one shape: every response has status 200,
    400 or 500; one of status 500 carries the prefix of its route in front
    of a message; and when the HTTP client rejects, that message is the
    message of the rejection, verbatim. *)
Theorem failures_answered_uniformly (E : Env) (op : Operation)
    (axios : AxiosConfig -> Outcome) (req : Request) :
  (r_status (run axios (handler op E req)) = 200%Z
   \/ r_status (run axios (handler op E req)) = 400%Z
   \/ r_status (run axios (handler op E req)) = 500%Z)
  /\ (r_status (run axios (handler op E req)) = 500%Z ->
      exists message,
        r_body (run axios (handler op E req))
        = error_body (failure_prefix op ++ message))
  /\ (forall config message,
        op <> checkLiveness ->
        dispatched (handler op E req) = Some config ->
        axios config = Rejected message ->
        run axios (handler op E req)
        = json 500 [] (error_body (failure_prefix op ++ message))).
Proof.
  split; [|split].
  - destruct (handler_answers E op axios req) as [_ [S|[(S & _)|(S & _)]]]; tauto.
  - intros S500.
    destruct (handler_answers E op axios req) as [_ [S|[(S & _)|(_ & _ & M)]]];
      [congruence|congruence|exact M].
  - intros config message NotCheck.
    destruct op; try congruence; cbn [handler failure_prefix];
      unfold m3u_url, proxy_stream, download, epg_fetch;
      try (destruct (body req) as [fields|]; [|discriminate]);
      try (destruct (negb (truthy (get (js "url") fields))); [discriminate|]);
      try (destruct (negb (qs_truthy (qs_get (js "url") (query req))));
           [discriminate|]);
      try (destruct (decodeURIComponent E (qs_get (js "url") (query req)));
           [|discriminate]);
      try match goal with
          | |- context [match ?n with Normal _ => _ | Throw _ => _ end] =>
              destruct n; [|discriminate]
          end;
      cbn [dispatched run]; intros [= <-] ->; reflexivity.
Qed.

Lemma failures_answered_uniformly_witness :
  run (fun _ => Rejected (js "timeout of 15000ms exceeded"))
      (handler liveStream example_env
         (request_with liveStream (js "http://example.com/live.ts")))
  = json 500 [] (error_body (js "Proxy error: timeout of 15000ms exceeded")).
Proof.
  destruct (failures_answered_uniformly example_env liveStream
              (fun _ => Rejected (js "timeout of 15000ms exceeded"))
              (request_with liveStream (js "http://example.com/live.ts")))
    as (_ & _ & H).
  apply (H (mkConfig GET (VString (js "http://example.com/live.ts"))
                     (Some stream) 15000 user_agent));
    [discriminate|reflexivity|reflexivity].
Defined.

(** X15. Every request that goes out names the same client in its
    User-Agent and carries the method, the response type and the bound on
    the wait of its route: 30 s for playlist and EPG, 15 s for a live
    stream, 60 s for a download, 8 s for the liveness probe, which alone
    uses HEAD. *)
Theorem outbound_requests_uniform (E : Env) (op : Operation) (req : Request)
    (config : AxiosConfig) :
  dispatched (handler op E req) = Some config ->
  c_userAgent config = js "IPTV-Player/1.0"
  /\ c_timeout config = timeout_of op
  /\ c_method config = method_of op
  /\ c_responseType config = responseType_of op.
Proof.
  destruct op; cbn [handler timeout_of method_of responseType_of];
    unfold m3u_url, proxy_stream, download, epg_fetch, stream_check;
    try (destruct (body req) as [fields|]; [|discriminate]);
    try (destruct (negb (truthy (get (js "url") fields))); [discriminate|]);
    try (destruct (negb (qs_truthy (qs_get (js "url") (query req))));
         [discriminate|]);
    try (destruct (decodeURIComponent E (qs_get (js "url") (query req)));
         [|discriminate]);
    try match goal with
        | |- context [match ?n with Normal _ => _ | Throw _ => _ end] =>
            destruct n; [|discriminate]
        end;
    cbn [dispatched]; intros [= <-]; repeat split.
Qed.

Lemma outbound_requests_uniform_witness :
  c_userAgent (mkConfig HEAD (VString (js "http://example.com/live.ts")) None 8000 user_agent)
  = js "IPTV-Player/1.0"
  /\ c_timeout (mkConfig HEAD (VString (js "http://example.com/live.ts")) None 8000 user_agent)
     = timeout_of checkLiveness
  /\ c_method (mkConfig HEAD (VString (js "http://example.com/live.ts")) None 8000 user_agent)
     = method_of checkLiveness
  /\ c_responseType (mkConfig HEAD (VString (js "http://example.com/live.ts")) None 8000 user_agent)
     = responseType_of checkLiveness.
Proof.
  apply (@outbound_requests_uniform example_env checkLiveness
           (request_with checkLiveness (js "http://example.com/live.ts"))).
  reflexivity.
Defined.

(** X16. The three playlist routes answer alike for the same non-empty
    text, fetched, uploaded or sent inline: status 200, the records
    [parseM3U] gives, and their number as [count].  For the empty text they
    differ: fetched or uploaded it is answered 200 with no channel, sent
    inline it is answered 400. *)
Theorem playlist_routes_agree (E : Env) (axios : AxiosConfig -> Outcome)
    (utf8 : list N -> jsstring) (req : Request) (config : AxiosConfig)
    (response : UpstreamResponse) (buffer : list N) (s : jsstring) :
  dispatched (m3u_url E req) = Some config ->
  axios config = Resolved response ->
  up_data response = VString s ->
  utf8 buffer = s ->
  let parsed := json 200 [] (channels_body (parseM3U (now E) s)
                                           (length (parseM3U (now E) s))) in
  let inline := run axios (m3u_text E (mkRequest (Some [(js "content", VString s)]) [])) in
  run axios (m3u_url E req) = parsed
  /\ run axios (m3u_upload E utf8 (Some buffer)) = parsed
  /\ (s <> [] -> inline = parsed)
  /\ (s = [] -> inline = json 400 [] (error_body (js "Content required"))).
Proof.
  intros D A Data U. cbn zeta. split; [|split; [|split]].
  - revert D. unfold m3u_url.
    destruct (body req) as [fields|]; [|discriminate].
    destruct (negb (truthy (get (js "url") fields))); [discriminate|].
    cbn [dispatched run]. intros [= <-]. now rewrite A, Data.
  - unfold m3u_upload. now rewrite U.
  - intros NE. destruct s as [|c s]; [congruence|]. reflexivity.
  - intros ->. reflexivity.
Qed.

Lemma playlist_routes_agree_witness :
  run (fun _ => Resolved (mkUpstream 200 [] (VString doc_three)))
      (m3u_url example_env (request_with fetchPlaylist (js "http://example.com/list.m3u")))
  = run (fun _ => Resolved (mkUpstream 200 [] (VString doc_three)))
        (m3u_upload example_env (fun bytes => bytes) (Some doc_three)).
Proof.
  destruct (@playlist_routes_agree example_env
              (fun _ => Resolved (mkUpstream 200 [] (VString doc_three)))
              (fun bytes => bytes)
              (request_with fetchPlaylist (js "http://example.com/list.m3u"))
              (mkConfig GET (VString (js "http://example.com/list.m3u")) (Some text)
                        30000 user_agent)
              (mkUpstream 200 [] (VString doc_three)) doc_three doc_three
              eq_refl eq_refl eq_refl eq_refl) as (A & B & _).
  exact (eq_trans A (eq_sym B)).
Defined.

(** X17. The stream route hands on what it receives: when the upstream
    answers with a stream, the response has status 200, the content of that
    stream as its body, the upstream content type (video/mp2t when there is
    none or it is empty) and an Access-Control-Allow-Origin of [*]. *)
Theorem stream_forwarded (E : Env) (axios : AxiosConfig -> Outcome)
    (req : Request) (config : AxiosConfig) (response : UpstreamResponse)
    (content : list N) :
  dispatched (proxy_stream E req) = Some config ->
  axios config = Resolved response ->
  up_data response = VStream content ->
  let contentType :=
    or_default (header (js "content-type") (up_headers response)) (js "video/mp2t") in
  header_value_ok contentType = true ->
  run axios (proxy_stream E req)
  = mkResponse 200
      [(js "Access-Control-Allow-Origin", js "*"); (js "Content-Type", contentType)]
      (piped_body content).
Proof.
  cbn zeta. unfold proxy_stream.
  destruct (negb (qs_truthy (qs_get (js "url") (query req)))); [discriminate|].
  destruct (decodeURIComponent E (qs_get (js "url") (query req))); [|discriminate].
  cbn [dispatched run]. intros [= <-] -> Data Ok.
  unfold stream_back. rewrite setHeaders_all.
  - rewrite Data. reflexivity.
  - cbn [forallb snd]. now rewrite Ok.
Qed.

Lemma stream_forwarded_witness :
  run (fun _ => Resolved (mkUpstream 200 [(js "content-type", js "video/mp4")]
                                     (VStream [0; 1; 2; 255]%N)))
      (proxy_stream example_env (request_with liveStream (js "http://example.com/a.mp4")))
  = mkResponse 200
      [(js "Access-Control-Allow-Origin", js "*"); (js "Content-Type", js "video/mp4")]
      (piped_body [0; 1; 2; 255]%N).
Proof.
  apply (@stream_forwarded example_env _
           (request_with liveStream (js "http://example.com/a.mp4"))
           (mkConfig GET (VString (js "http://example.com/a.mp4")) (Some stream)
                     15000 user_agent)
           (mkUpstream 200 [(js "content-type", js "video/mp4")]
                       (VStream [0; 1; 2; 255]%N)));
    reflexivity.
Defined.

(** X19. The download route offers the body under a name: when the upstream
    answers with a stream and the name passes the check of [setHeader], the
    response has status 200, the content of the stream as its body, a
    Content-Disposition that names the decoded [filename] of the query (the
    base name of the decoded URL when there is none, [video.mp4] when that
    is empty), the upstream content type or application/octet-stream, the
    upstream content length when there is one, and an
    Access-Control-Allow-Origin of [*].  When the name does not pass the
    check, the response is a 500 although the request has gone out. *)
Theorem download_named (E : Env) (axios : AxiosConfig -> Outcome)
    (req : Request) (config : AxiosConfig) (response : UpstreamResponse)
    (content : list N) :
  dispatched (download E req) = Some config ->
  axios config = Resolved response ->
  up_data response = VStream content ->
  exists decodedUrl name,
    decodeURIComponent E (qs_get (js "url") (query req)) = Normal decodedUrl
    /\ download_name E req decodedUrl = Normal name
    /\ let disposition := js "attachment; filename=" ++ quoted name in
       let contentType :=
         or_default (header (js "content-type") (up_headers response))
                    (js "application/octet-stream") in
       let contentLength :=
         when_truthy (header (js "content-length") (up_headers response)) in
       let r := run axios (download E req) in
       (header_value_ok disposition = true ->
        header_value_ok contentType = true ->
        (forall l, contentLength = Some l -> header_value_ok l = true) ->
        r_status r = 200%Z
        /\ r_body r = piped_body content
        /\ header (js "Content-Disposition") (r_headers r) = Some disposition
        /\ header (js "Content-Type") (r_headers r) = Some contentType
        /\ header (js "Content-Length") (r_headers r) = contentLength
        /\ header (js "Access-Control-Allow-Origin") (r_headers r) = Some (js "*"))
       /\ (header_value_ok disposition = false ->
           r = json 500 [] (error_body
                 (js "Download failed: "
                  ++ fault_message E (InvalidHeaderValue (js "Content-Disposition"))))).
Proof.
  unfold download. cbv zeta.
  destruct (negb (qs_truthy (qs_get (js "url") (query req)))); [discriminate|].
  destruct (decodeURIComponent E (qs_get (js "url") (query req)))
    as [decodedUrl|]; [|discriminate].
  change (if qs_truthy (qs_get (js "filename") (query req))
          then decodeURIComponent E (qs_get (js "filename") (query req))
          else Normal (or_default (Some (basename E decodedUrl)) (js "video.mp4")))
    with (download_name E req decodedUrl).
  destruct (download_name E req decodedUrl) as [name|] eqn:Name; [|discriminate].
  cbn [dispatched run]. intros [= <-] -> Data.
  exists decodedUrl, name. split; [reflexivity|]. split; [exact Name|].
  cbn zeta. unfold stream_back, when_truthy. split.
  - intros OkD OkT OkL.
    destruct (header (js "content-length") (up_headers response)) as [l|].
    + destruct (JS.truthy_str l) eqn:T.
      * rewrite setHeaders_all.
        -- rewrite Data. repeat split.
        -- cbn [app forallb snd]. unfold quoted in OkD. cbn [app] in OkD.
           now rewrite OkD, OkT, (OkL l eq_refl).
      * rewrite setHeaders_all.
        -- rewrite Data. repeat split.
        -- cbn [app forallb snd]. unfold quoted in OkD. cbn [app] in OkD.
           now rewrite OkD, OkT.
    + rewrite setHeaders_all.
      * rewrite Data. repeat split.
      * cbn [app forallb snd]. unfold quoted in OkD. cbn [app] in OkD.
        now rewrite OkD, OkT.
  - intros Bad. cbn [app setHeaders]. unfold quoted in Bad. cbn [app] in Bad.
    now rewrite Bad.
Qed.

Lemma download_named_witness :
  r_status (run (fun _ => Resolved download_upstream)
                (download example_env download_request)) = 200%Z
  /\ header (js "Content-Disposition")
            (r_headers (run (fun _ => Resolved download_upstream)
                            (download example_env download_request)))
     = Some (js "attachment; filename=" ++ quoted (js "A film.mp4")).
Proof.
  destruct (@download_named example_env (fun _ => Resolved download_upstream)
              download_request
              (mkConfig GET (VString (js "http://example.com/films/a b.mp4"))
                        (Some stream) 60000 user_agent)
              download_upstream [0; 1; 2; 255]%N eq_refl eq_refl eq_refl)
    as (decodedUrl & name & _ & Name & Good & _).
  vm_compute in Name. injection Name as <-.
  destruct Good as (S & _ & D & _).
  - reflexivity.
  - reflexivity.
  - intros l [= <-]. reflexivity.
  - split; [exact S|exact D].
Defined.

Lemma scan_plain (s : jsstring) :
  ~ In JS.percent s -> URI.scan URI.start s = Some s.
Proof.
  induction s as [|c t IH]; intros NI; [reflexivity|].
  cbn [URI.scan]. unfold URI.unit_read. cbn [URI.phase URI.start URI.need].
  destruct (N.eqb_spec c JS.percent) as [->|_].
  - exfalso. apply NI. now left.
  - rewrite IH; [reflexivity|]. intros I. apply NI. now right.
Qed.

(** X20. A locator that holds no percent sign reaches the HTTP client as
    the caller wrote it, on every route. *)
Theorem plain_locator_verbatim (E : Env) (op : Operation) (locator : jsstring) :
  locator <> [] -> ~ In JS.percent locator ->
  exists config,
    dispatched (handler op E (request_with op locator)) = Some config
    /\ c_url config = VString locator.
Proof.
  intros NE NP. destruct locator as [|a l]; [congruence|].
  pose proof (@scan_plain (a :: l) NP) as D.
  destruct op; unfold request_with; cbn [from_query handler];
    unfold m3u_url, proxy_stream, download, epg_fetch, stream_check;
    cbn [body query];
    rewrite ?body_get_url, ?query_get_url, ?query_get_filename;
    cbn [truthy qs_truthy JS.truthy_str negb];
    unfold decodeURIComponent, URI.decode; cbn [ToString_property ToString];
    rewrite ?D; eexists; split; reflexivity.
Qed.

Lemma plain_locator_verbatim_witness :
  exists config,
    dispatched (handler downloadFile example_env
                  (request_with downloadFile (js "http://example.com/film.mp4")))
    = Some config
    /\ c_url config = VString (js "http://example.com/film.mp4").
Proof.
  apply plain_locator_verbatim; [discriminate|not_in].
Defined.

(* ------------------------------------------------------------------ *)
(** ** Properties of the favourites *)

Section Favourites.

Lemma str_eqb_eq (a b : jsstring) : str_eqb a b = true <-> a = b.
Proof.
  revert b. induction a as [|x a IH]; intros [|y b]; cbn [str_eqb];
    try (split; [discriminate|congruence]); [tauto|].
  rewrite andb_true_iff, N.eqb_eq, IH. split; [intros [-> ->]; reflexivity|].
  intros [= -> ->]. now split.
Qed.

Lemma str_eqb_refl (a : jsstring) : str_eqb a a = true.
Proof. now apply str_eqb_eq. Qed.

Variable channel : Channel.

Let same (f : Channel) : bool := str_eqb (url f) (url channel).

Lemma find_some_exists (favs : list Channel) :
  is_some (find same favs) = existsb same favs.
Proof.
  induction favs as [|f favs IH]; cbn [find existsb]; [reflexivity|].
  destruct (same f); [reflexivity|exact IH].
Qed.

Lemma existsb_filter_out (favs : list Channel) :
  existsb same (filter (fun f => negb (same f)) favs) = false.
Proof.
  induction favs as [|f favs IH]; cbn [filter]; [reflexivity|].
  destruct (same f) eqn:S; cbn [negb existsb]; [exact IH|].
  now rewrite S.
Qed.

Lemma filter_none_out (favs : list Channel) :
  existsb same favs = false -> filter (fun f => negb (same f)) favs = favs.
Proof.
  induction favs as [|f favs IH]; cbn [existsb filter]; [reflexivity|].
  intros H. apply orb_false_iff in H. destruct H as [S H].
  rewrite S. cbn [negb]. now rewrite IH.
Qed.

Lemma toggle_cases (favs : list Channel) :
  toggleFavorite channel favs
  = if isFavorite favs (Some channel)
    then filter (fun f => negb (same f)) favs
    else favs ++ [channel].
Proof.
  unfold toggleFavorite, isFavorite. fold same.
  change (fun f : Channel => str_eqb (url f) (url channel)) with same.
  rewrite <- find_some_exists. now destruct (find same favs).
Qed.

End Favourites.

Lemma isFavorite_toggled (channel : Channel) (favorites : list Channel) :
  isFavorite (toggleFavorite channel favorites) (Some channel)
  = negb (isFavorite favorites (Some channel)).
Proof.
  rewrite toggle_cases. destruct (isFavorite favorites (Some channel)) eqn:F.
  - apply existsb_filter_out.
  - unfold isFavorite in *. rewrite existsb_app, F. cbn [existsb].
    now rewrite str_eqb_refl.
Qed.

(** X21. Toggling a channel flips whether it is a favourite. *)
Theorem toggle_flips (channel : Channel) (favorites : list Channel) :
  isFavorite (toggleFavorite channel favorites) (Some channel)
  = negb (isFavorite favorites (Some channel)).
Proof. apply isFavorite_toggled. Qed.

(** X22. Toggling a channel leaves every channel with another URL as it
    was, favourite or not. *)
Theorem toggle_leaves_others (channel other : Channel) (favorites : list Channel) :
  url other <> url channel ->
  isFavorite (toggleFavorite channel favorites) (Some other)
  = isFavorite favorites (Some other).
Proof.
  intros NE. rewrite toggle_cases.
  destruct (isFavorite favorites (Some channel)); unfold isFavorite.
  - induction favorites as [|f favs IH]; cbn [filter existsb]; [reflexivity|].
    destruct (str_eqb (url f) (url channel)) eqn:S; cbn [negb existsb].
    + apply str_eqb_eq in S.
      destruct (str_eqb (url f) (url other)) eqn:O; [|exact IH].
      apply str_eqb_eq in O. congruence.
    + now rewrite IH.
  - rewrite existsb_app. cbn [existsb].
    destruct (str_eqb (url channel) (url other)) eqn:O.
    + apply str_eqb_eq in O. congruence.
    + now rewrite !orb_false_r.
Qed.

Lemma toggle_leaves_others_witness :
  isFavorite (toggleFavorite (channel_at (js "http://example.com/2.ts") (js "Two"))
                             some_favorites)
             (Some (channel_at (js "http://example.com/1.ts") (js "One")))
  = isFavorite some_favorites
               (Some (channel_at (js "http://example.com/1.ts") (js "One"))).
Proof.
  apply toggle_leaves_others. discriminate.
Defined.

(** X23. Toggling twice: for a channel that was no favourite the list is
    back as it was; for one that was, every entry with its URL is gone and
    the channel as last toggled stands at the end. *)
Theorem toggle_twice (channel : Channel) (favorites : list Channel) :
  toggleFavorite channel (toggleFavorite channel favorites)
  = if isFavorite favorites (Some channel)
    then filter (fun f => negb (str_eqb (url f) (url channel))) favorites ++ [channel]
    else favorites.
Proof.
  pose proof (isFavorite_toggled channel favorites) as Flip.
  rewrite (toggle_cases channel (toggleFavorite channel favorites)), Flip.
  rewrite toggle_cases.
  destruct (isFavorite favorites (Some channel)) eqn:F; cbn [negb]; [reflexivity|].
  rewrite filter_app. cbn [filter]. rewrite str_eqb_refl. cbn [negb].
  rewrite app_nil_r. now apply filter_none_out.
Qed.

Lemma NoDup_snoc {A} (l : list A) (x : A) :
  NoDup l -> ~ In x l -> NoDup (l ++ [x]).
Proof.
  induction 1 as [|a l NI ND IH]; intros NX; cbn [app].
  - constructor; [intros []|constructor].
  - constructor.
    + intros I. apply in_app_or in I. destruct I as [I|[->|[]]]; [now apply NI|].
      apply NX. now left.
    + apply IH. intros I. apply NX. now right.
Qed.

(** X24. When no two favourites share a URL, none do after a toggle. *)
Theorem toggle_keeps_urls_distinct (channel : Channel) (favorites : list Channel) :
  NoDup (List.map url favorites) ->
  NoDup (List.map url (toggleFavorite channel favorites)).
Proof.
  intros ND. rewrite toggle_cases.
  destruct (isFavorite favorites (Some channel)) eqn:F.
  - induction favorites as [|f favs IH]; cbn [filter List.map] in *; [constructor|].
    inversion ND as [|u us NI ND']; subst.
    assert (Sub : forall x, In x (List.map url (filter (fun g => negb (str_eqb (url g) (url channel))) favs))
                            -> In x (List.map url favs)).
    { intros x I. apply in_map_iff in I. destruct I as (g & <- & Ig).
      apply filter_In in Ig. apply in_map. tauto. }
    destruct (str_eqb (url f) (url channel)) eqn:S; cbn [negb List.map].
    + unfold isFavorite in F. cbn [existsb] in F. rewrite S in F. cbn [orb] in F.
      destruct (existsb (fun g => str_eqb (url g) (url channel)) favs) eqn:Ex.
      * now apply IH.
      * rewrite (filter_none_out channel favs Ex). exact ND'.
    + constructor.
      * intros I. apply NI. now apply Sub.
      * unfold isFavorite in F. cbn [existsb] in F. rewrite S in F. cbn [orb] in F.
        now apply IH.
  - rewrite map_app. cbn [List.map]. apply NoDup_snoc; [exact ND|].
    intros I. apply in_map_iff in I. destruct I as (g & Eg & Ig).
    unfold isFavorite in F.
    assert (T : existsb (fun f => str_eqb (url f) (url channel)) favorites = true).
    { apply existsb_exists. exists g. split; [exact Ig|]. now apply str_eqb_eq. }
    congruence.
Qed.

Lemma toggle_keeps_urls_distinct_witness :
  NoDup (List.map url (toggleFavorite (channel_at (js "http://example.com/3.ts") (js "Three"))
                                      some_favorites)).
Proof.
  apply toggle_keeps_urls_distinct.
  repeat constructor; cbn; intuition discriminate.
Defined.
